(** * Vocal extraction pipeline of [VocalExtraction.tsx]

    A shallow embedding of the client-side separation pipeline:
    [extractVocals] (stereo centre/side branch, mono overlap-add branch,
    TensorFlow.js soft limiter with its try/catch, peak normalisation),
    the container encoder [audioBufferToBase64] and the entry guard
    [handleExtractVocals].

    Samples are modelled as real numbers: the Float32Array arithmetic of
    the source is taken exactly, without rounding.  A Float32Array is a
    [list R]; it is zero-filled when created, and a write out of range is
    ignored, which is what stdpp's list insert does. *)

From Stdlib Require Import Reals Lra Lia ZArith String Ascii.
From stdpp Require Import base list.

Open Scope R_scope.

(** ** Typed arrays and loops *)

(** [arr[i]]: every read below is in range (a typed array yields
    [undefined] out of range, which the code never reaches). *)
Definition rd (a : list R) (i : nat) : R := default 0 (a !! i).

(** [new Float32Array(n)] *)
Definition f32_new (n : nat) : list R := replicate n 0.

(** [for (let i = lo; i < lo + n; i++) body] *)
Fixpoint for_loop {St} (n lo : nat) (body : nat -> St -> St) (s : St) : St :=
  match n with
  | O => s
  | Datatypes.S n' => for_loop n' (Datatypes.S lo) body (body lo s)
  end.

(** ** The AudioBuffer *)

Record AudioBuffer := mkAudioBuffer {
  sampleRate : Z;
  ab_length : nat;
  ab_data : list (list R)   (* one Float32Array per channel *)
}.

Definition numberOfChannels (ab : AudioBuffer) : nat := length (ab_data ab).

(** [getChannelData(c)] *)
Definition getChannelData (ab : AudioBuffer) (c : nat) : list R :=
  default [] (ab_data ab !! c).

(** Every channel holds [length] samples (the Web Audio invariant). *)
Definition well_formed (ab : AudioBuffer) : Prop :=
  Forall (fun ch => length ch = ab_length ab) (ab_data ab).

(** [context.createBuffer(numberOfChannels, length, sampleRate)]: silent. *)
Definition createBuffer (C L : nat) (rate : Z) : AudioBuffer :=
  mkAudioBuffer rate L (replicate C (f32_new L)).

(** ** Stereo branch: centre/side split and smoothing *)

Definition smoothingFactor : R := 0.3.

(** First pass: [centerChannel], [sideChannelLeft], [sideChannelRight]. *)
Definition first_pass (L : nat) (leftChannel rightChannel : list R)
  : list R * list R * list R :=
  for_loop L 0
    (fun i '(centerChannel, sideChannelLeft, sideChannelRight) =>
       let left := rd leftChannel i in
       let right := rd rightChannel i in
       let centerChannel := <[i := (left + right) / 2]> centerChannel in
       (centerChannel,
        <[i := left - rd centerChannel i]> sideChannelLeft,
        <[i := right - rd centerChannel i]> sideChannelRight))
    (f32_new L, f32_new L, f32_new L).

Definition smooth_step (prev x : R) : R :=
  prev * (1 - smoothingFactor) + x * smoothingFactor.

(** Second pass, writing into [vocalsLeft], [vocalsRight],
    [accompanimentLeft], [accompanimentRight]. *)
Definition second_pass (L : nat) (centerChannel sideChannelLeft sideChannelRight : list R)
  (out : list R * list R * list R * list R) : list R * list R * list R * list R :=
  let '(vocalsLeft, vocalsRight, accompanimentLeft, accompanimentRight) := out in
  let out0 :=
    (<[0%nat := rd centerChannel 0]> vocalsLeft,
     <[0%nat := rd centerChannel 0]> vocalsRight,
     <[0%nat := rd sideChannelLeft 0]> accompanimentLeft,
     <[0%nat := rd sideChannelRight 0]> accompanimentRight) in
  for_loop (L - 1) 1
    (fun i '(vocalsLeft, vocalsRight, accompanimentLeft, accompanimentRight) =>
       (<[i := smooth_step (rd vocalsLeft (i - 1)) (rd centerChannel i)]> vocalsLeft,
        <[i := smooth_step (rd vocalsRight (i - 1)) (rd centerChannel i)]> vocalsRight,
        <[i := smooth_step (rd accompanimentLeft (i - 1)) (rd sideChannelLeft i)]>
          accompanimentLeft,
        <[i := smooth_step (rd accompanimentRight (i - 1)) (rd sideChannelRight i)]>
          accompanimentRight))
    out0.

(** Both passes, on the (silent) channels 0 and 1 of the fresh buffers. *)
Definition stereo_pass (L : nat) (leftChannel rightChannel : list R)
  : list R * list R * list R * list R :=
  let '(c, sl, sr) := first_pass L leftChannel rightChannel in
  second_pass L c sl sr (f32_new L, f32_new L, f32_new L, f32_new L).

(** The smoothing as the spec words it: [y[0] = x[0]],
    [y[i] = y[i-1]*0.7 + x[i]*0.3]. *)
Fixpoint ema_at (x : list R) (i : nat) : R :=
  match i with
  | O => rd x 0
  | Datatypes.S j => ema_at x j * 0.7 + rd x (Datatypes.S j) * 0.3
  end.

Definition ema_spec (x : list R) : list R := map (ema_at x) (seq 0 (length x)).

Definition center_spec (left right : list R) : list R :=
  zip_with (fun l r => (l + r) / 2) left right.
Definition side_spec (own left right : list R) : list R :=
  zip_with (fun o c => o - c) own (center_spec left right).

(** ** Mono branch: windowed frequency weighting *)

(** [for (let i = lo; cond(i); i += step) body], run for at most [fuel]
    rounds; every caller passes enough fuel for its condition to fail. *)
Fixpoint js_for {St} (fuel lo step : nat) (cond : nat -> bool)
  (body : nat -> St -> St) (s : St) : St :=
  match fuel with
  | O => s
  | Datatypes.S f =>
      if cond lo then js_for f (lo + step) step cond body (body lo s) else s
  end.

Definition windowSize : nat := 1024.
Definition hopSize : nat := windowSize / 4.

(** [Math.min(1, freqWeight * 3)] and [Math.min(1, (1 - freqWeight) * 2)]
    with [freqWeight = i / windowSize]. *)
Definition vocalWeight (i : nat) : R := Rmin 1 (INR i / INR windowSize * 3).
Definition accompanimentWeight (i : nat) : R :=
  Rmin 1 ((1 - INR i / INR windowSize) * 2).

(** One window at offset [start]: weight the slice, then add it into the
    outputs with [for (i = 0; i < windowSize && start + i < length; i++)]. *)
Definition mono_window (L : nat) (inputData : list R) (start : nat)
  (out : list R * list R) : list R * list R :=
  let window := take windowSize (drop start inputData) in
  let '(vocalsWindow, accompanimentWindow) :=
    for_loop windowSize 0
      (fun i '(vw, aw) =>
         let sample := rd window i in
         (<[i := sample * vocalWeight i]> vw,
          <[i := sample * accompanimentWeight i]> aw))
      (f32_new windowSize, f32_new windowSize) in
  js_for (Datatypes.S windowSize) 0 1
    (fun i => (i <? windowSize) && (start + i <? L))%nat
    (fun i '(vocalsData, accompanimentData) =>
       (<[(start + i)%nat := rd vocalsData (start + i) + rd vocalsWindow i]> vocalsData,
        <[(start + i)%nat := rd accompanimentData (start + i) + rd accompanimentWindow i]>
          accompanimentData))
    out.

(** [for (let start = 0; start < length - windowSize; start += hopSize)]
    over the silent channel 0 of the fresh buffers; the comparison is on
    JS numbers, where [length - windowSize] may be negative. *)
Definition mono_pass (L : nat) (inputData : list R) : list R * list R :=
  js_for (Datatypes.S L) 0 hopSize
    (fun start => (Z.of_nat start <? Z.of_nat L - Z.of_nat windowSize)%Z)
    (mono_window L inputData)
    (f32_new L, f32_new L).

(** The overlap-add as the spec words it: every full window
    [start = k * hopSize], [start + windowSize <= L], adds
    [sample[start+j] * weight j] at [start + j]. *)
Definition full_windows (L : nat) : list nat :=
  filter (fun s => (s + windowSize <=? L)%nat)
    (map (fun k => k * hopSize)%nat (seq 0 (Datatypes.S (L / hopSize)))).

Definition overlap_add_spec (weight : nat -> R) (L : nat) (x : list R) (k : nat) : R :=
  fold_right Rplus 0
    (map (fun s => if (s <=? k)%nat && (k <? s + windowSize)%nat
                   then rd x k * weight (k - s)%nat else 0)
         (full_windows L)).

(** ** The TensorFlow.js soft limiter and its try/catch *)

(** The four channel arrays the stereo branch writes. *)
Definition Bufs : Type := list R * list R * list R * list R.

(** The try block: state passing over the buffers; a throw keeps the
    buffers as they are at the throw point. *)
Definition TryM (A : Type) : Type := Bufs -> (A * Bufs) + Bufs.

Definition try_ret {A} (a : A) : TryM A := fun s => inl (a, s).
Definition try_bind {A B} (m : TryM A) (k : A -> TryM B) : TryM B :=
  fun s => match m s with inl (a, s') => k a s' | inr s' => inr s' end.
Definition try_get : TryM Bufs := fun s => inl (s, s).
Definition try_put (s : Bufs) : TryM unit := fun _ => inl (tt, s).

Notation "'let!' x ':=' m 'in' k" := (try_bind m (fun x => k))
  (at level 200, x name, m at level 100, k at level 200).

(** The backend operations the block calls; [throws o] says whether
    calls of [o] raise. *)
Inductive tf_op := OpTensor2d | OpMul | OpTanh | OpData | OpDispose.

Definition tf_call {A} (throws : tf_op -> bool) (o : tf_op) (v : A) : TryM A :=
  fun s => if throws o then inr s else inl (v, s).

(** A tensor of shape [2, length], flattened row-major as [data()] returns it. *)
Definition tensor2d (rows : list (list R)) : list R := concat rows.

(** The copy back: [vocalsLeft[i] = vocalsData[i]],
    [vocalsRight[i] = vocalsData[i + length]], and so on. *)
Definition copy_back (L : nat) (vocalsData accompanimentData : list R) (b : Bufs) : Bufs :=
  for_loop L 0
    (fun i '(vocalsLeft, vocalsRight, accompanimentLeft, accompanimentRight) =>
       (<[i := rd vocalsData i]> vocalsLeft,
        <[i := rd vocalsData (i + L)]> vocalsRight,
        <[i := rd accompanimentData i]> accompanimentLeft,
        <[i := rd accompanimentData (i + L)]> accompanimentRight))
    b.

Definition tf_block (throws : tf_op -> bool) (L : nat) : TryM unit :=
  let! b := try_get in
  let '(vocalsLeft, vocalsRight, accompanimentLeft, accompanimentRight) := b in
  let! vocalsTensor := tf_call throws OpTensor2d (tensor2d [vocalsLeft; vocalsRight]) in
  let! accompanimentTensor :=
    tf_call throws OpTensor2d (tensor2d [accompanimentLeft; accompanimentRight]) in
  let! vm := tf_call throws OpMul (map (fun x => x * 1.2) vocalsTensor) in
  let! vocalsEnhanced := tf_call throws OpTanh (map tanh vm) in
  let! am := tf_call throws OpMul (map (fun x => x * 1.1) accompanimentTensor) in
  let! accompanimentEnhanced := tf_call throws OpTanh (map tanh am) in
  let! vocalsData := tf_call throws OpData vocalsEnhanced in
  let! accompanimentData := tf_call throws OpData accompanimentEnhanced in
  let! b := try_get in
  let! _ := try_put (copy_back L vocalsData accompanimentData b) in
  let! _ := tf_call throws OpDispose tt in
  let! _ := tf_call throws OpDispose tt in
  let! _ := tf_call throws OpDispose tt in
  tf_call throws OpDispose tt.

(** [if (tf) { try { ... } catch { console.warn(...) } }]: [None] is a
    null [tf]; a caught throw leaves the buffers as the block left them. *)
Definition enhance (tf : option (tf_op -> bool)) (L : nat) (b : Bufs) : Bufs :=
  match tf with
  | None => b
  | Some throws =>
      match tf_block throws L b with
      | inl (_, b') => b'
      | inr b' => b'
      end
  end.

(** ** Normalisation *)

(** The running maximum [if (abs > max) max = abs], from [0]. *)
Definition peak (ch : list R) : R :=
  fold_left (fun m x => if Rlt_dec m (Rabs x) then Rabs x else m) ch 0.

(** [if (max > 0) { gain = Math.min(1, 0.9 / max); data[i] *= gain }] *)
Definition normalize_channel (ch : list R) : list R :=
  let p := peak ch in
  if Rlt_dec 0 p then map (fun x => x * Rmin 1 (0.9 / p)) ch else ch.

(** The channel loop of the final normalisation, for one stem. *)
Definition normalize_stem (chs : list (list R)) : list (list R) :=
  map normalize_channel chs.

(** ** [extractVocals] *)

(** The separation, before normalisation: the stems' channel lists. *)
Definition separate (tf : option (tf_op -> bool)) (ab : AudioBuffer)
  : list (list R) * list (list R) :=
  let L := ab_length ab in
  let C := numberOfChannels ab in
  let vocalsBuffer := createBuffer C L (sampleRate ab) in
  let accompanimentBuffer := createBuffer C L (sampleRate ab) in
  if (2 <=? C)%nat then
    let '(vocalsLeft, vocalsRight, accompanimentLeft, accompanimentRight) :=
      enhance tf L (stereo_pass L (getChannelData ab 0) (getChannelData ab 1)) in
    (<[1%nat := vocalsRight]> (<[0%nat := vocalsLeft]> (ab_data vocalsBuffer)),
     <[1%nat := accompanimentRight]> (<[0%nat := accompanimentLeft]> (ab_data accompanimentBuffer)))
  else
    let '(vocalsData, accompanimentData) := mono_pass L (getChannelData ab 0) in
    (<[0%nat := vocalsData]> (ab_data vocalsBuffer),
     <[0%nat := accompanimentData]> (ab_data accompanimentBuffer)).

Definition extractVocals (tf : option (tf_op -> bool)) (ab : AudioBuffer)
  : AudioBuffer * AudioBuffer :=
  let '(vch, ach) := separate tf ab in
  (mkAudioBuffer (sampleRate ab) (ab_length ab) (normalize_stem vch),
   mkAudioBuffer (sampleRate ab) (ab_length ab) (normalize_stem ach)).

(** ** The container encoder [audioBufferToBase64] *)

(** The [ArrayBuffer] behind the [DataView] is a list of bytes, each a [Z]
    in [0, 256).  Every write of the encoder is in range (the buffer is
    allocated with the exact size), so a write is a list insert. *)

Fixpoint set_bytes (view : list Z) (off : nat) (bs : list Z) : list Z :=
  match bs with
  | [] => view
  | b :: bs' => set_bytes (<[off := b]> view) (S off) bs'
  end.

(** Little-endian byte patterns of [ToUint16] and [ToUint32]. *)
Definition u16_bytes (v : Z) : list Z :=
  let w := (v mod 2 ^ 16)%Z in [(w mod 256)%Z; (w / 256 mod 256)%Z].

Definition u32_bytes (v : Z) : list Z :=
  let w := (v mod 2 ^ 32)%Z in
  [(w mod 256)%Z; (w / 256 mod 256)%Z; (w / 65536 mod 256)%Z;
   (w / 16777216 mod 256)%Z].

Definition setUint8 (view : list Z) (off : nat) (v : Z) : list Z :=
  set_bytes view off [(v mod 256)%Z].

(** [view.setUint16(off, v, true)] and [view.setUint32(off, v, true)]. *)
Definition setUint16 (view : list Z) (off : nat) (v : Z) : list Z :=
  set_bytes view off (u16_bytes v).

Definition setUint32 (view : list Z) (off : nat) (v : Z) : list Z :=
  set_bytes view off (u32_bytes v).

(** [ToIntegerOrInfinity] of a finite number: truncation towards zero. *)
Definition js_trunc (x : R) : Z :=
  if Rle_dec 0 x then Int_part x else (- Int_part (- x))%Z.

(** [view.setInt16(off, x, true)]: [ToInt16] keeps the truncated value
    modulo [2^16], whose two bytes are those of [ToUint16]. *)
Definition setInt16 (view : list Z) (off : nat) (x : R) : list Z :=
  set_bytes view off (u16_bytes (js_trunc x)).

Definition charCodeAt (s : string) (i : nat) : Z :=
  match String.get i s with
  | Some a => Z.of_nat (nat_of_ascii a)
  | None => 0%Z
  end.

Definition writeString (view : list Z) (offset : nat) (s : string) : list Z :=
  for_loop (String.length s) 0
    (fun i view => setUint8 view (offset + i) (charCodeAt s i)) view.

(** The header part of [audioBufferToWavBase64], on a fresh buffer. *)
Definition wav_header (ab : AudioBuffer) (view : list Z) : list Z :=
  let length := ab_length ab in
  let sampleRate := sampleRate ab in
  let numberOfChannels := numberOfChannels ab in
  let n := Z.of_nat (length * numberOfChannels * 2) in
  let view := writeString view 0 "RIFF" in
  let view := setUint32 view 4 (36 + n) in
  let view := writeString view 8 "WAVE" in
  let view := writeString view 12 "fmt " in
  let view := setUint32 view 16 16 in
  let view := setUint16 view 20 1 in
  let view := setUint16 view 22 (Z.of_nat numberOfChannels) in
  let view := setUint32 view 24 sampleRate in
  let view := setUint32 view 28 (sampleRate * Z.of_nat numberOfChannels * 2) in
  let view := setUint16 view 32 (Z.of_nat numberOfChannels * 2) in
  let view := setUint16 view 34 16 in
  let view := writeString view 36 "data" in
  setUint32 view 40 n.

(** The interleaving loop: 16-bit samples from offset 44. *)
Definition wav_samples (ab : AudioBuffer) (view : list Z) : list Z :=
  fst (for_loop (ab_length ab) 0
    (fun i '(view, offset) =>
       for_loop (numberOfChannels ab) 0
         (fun channel '(view, offset) =>
            let sample := Rmax (-1) (Rmin 1 (rd (getChannelData ab channel) i)) in
            (setInt16 view offset (sample * 32767), (offset + 2)%nat))
         (view, offset))
    (view, 44%nat)).

(** The bytes of [wavData]. *)
Definition wav_bytes (ab : AudioBuffer) : list Z :=
  let size := (44 + ab_length ab * numberOfChannels ab * 2)%nat in
  wav_samples ab (wav_header ab (replicate size 0%Z)).

(** [btoa] on the binary string made of one [String.fromCharCode] per
    byte: the standard base64 encoding of the bytes, with padding. *)
Definition b64_alphabet : string :=
  "ABCDEFGHIJKLMNOPQRSTUVWXYZabcdefghijklmnopqrstuvwxyz0123456789+/".

Definition b64_char (n : Z) : ascii :=
  match String.get (Z.to_nat n) b64_alphabet with
  | Some a => a
  | None => "="%char
  end.

Fixpoint base64_chars (bs : list Z) : list ascii :=
  match bs with
  | b0 :: b1 :: b2 :: rest =>
      b64_char (b0 / 4) :: b64_char (b0 mod 4 * 16 + b1 / 16)
      :: b64_char (b1 mod 16 * 4 + b2 / 64) :: b64_char (b2 mod 64)
      :: base64_chars rest
  | [b0; b1] =>
      [b64_char (b0 / 4); b64_char (b0 mod 4 * 16 + b1 / 16);
       b64_char (b1 mod 16 * 4); "="%char]
  | [b0] => [b64_char (b0 / 4); b64_char (b0 mod 4 * 16); "="%char; "="%char]
  | [] => []
  end%Z.

Definition btoa (bytes : list Z) : string := string_of_list_ascii (base64_chars bytes).

Definition audioBufferToWavBase64 (ab : AudioBuffer) : string := btoa (wav_bytes ab).

(** MP3 encoding is not available in the browser: the WAV encoder is used. *)
Definition audioBufferToMp3Base64 (ab : AudioBuffer) : string :=
  audioBufferToWavBase64 ab.

Inductive format_tag := FormatWav | FormatMp3.

Definition audioBufferToBase64 (ab : AudioBuffer) (format : format_tag) : string :=
  match format with
  | FormatWav => audioBufferToWavBase64 ab
  | FormatMp3 => audioBufferToMp3Base64 ab
  end.

(** A reader of the canonical 44-byte PCM WAV header: the RIFF/WAVE tags,
    a 16-byte [fmt ] chunk of format 1 (PCM) at 16 bits, consistent byte
    rate and block align, and a [data] chunk filling the rest of the
    file.  It returns the channel count, the sample rate and the size of
    the data chunk. *)
Definition tag (s : string) : list Z :=
  map (fun a => Z.of_nat (nat_of_ascii a)) (list_ascii_of_string s).

Definition le_value (bs : list Z) : Z :=
  fold_right (fun b acc => (b + 256 * acc)%Z) 0%Z bs.

Definition field (hdr : list Z) (off len : nat) : list Z := take len (drop off hdr).

Definition parse_wav (bs : list Z) : option (Z * Z * Z) :=
  let hdr := take 44 bs in
  let N := Z.of_nat (length bs) in
  let channels := le_value (field hdr 22 2) in
  let rate := le_value (field hdr 24 4) in
  if (44 <=? N)%Z
     && bool_decide (field hdr 0 4 = tag "RIFF")
     && (le_value (field hdr 4 4) =? N - 8)%Z
     && bool_decide (field hdr 8 4 = tag "WAVE")
     && bool_decide (field hdr 12 4 = tag "fmt ")
     && (le_value (field hdr 16 4) =? 16)%Z
     && (le_value (field hdr 20 2) =? 1)%Z
     && (1 <=? channels)%Z
     && (le_value (field hdr 28 4) =? rate * channels * 2)%Z
     && (le_value (field hdr 32 2) =? channels * 2)%Z
     && (le_value (field hdr 34 2) =? 16)%Z
     && bool_decide (field hdr 36 4 = tag "data")
     && (le_value (field hdr 40 4) =? N - 44)%Z
  then Some (channels, rate, (N - 44)%Z)
  else None.

(** The reader side of the base64 text: [atob], position of each character
    in the alphabet, four characters to three bytes, with the padded last
    group giving one or two bytes. *)
Fixpoint str_index (a : ascii) (s : string) : Z :=
  match s with
  | EmptyString => 0%Z
  | String c s' => if Ascii.eqb a c then 0%Z else (1 + str_index a s')%Z
  end.

Definition b64_index (a : ascii) : Z := str_index a b64_alphabet.

Fixpoint atob_chars (cs : list ascii) : list Z :=
  match cs with
  | c0 :: c1 :: c2 :: c3 :: rest =>
      let i0 := b64_index c0 in
      let i1 := b64_index c1 in
      let i2 := b64_index c2 in
      let i3 := b64_index c3 in
      if Ascii.eqb c3 "=" then
        (if Ascii.eqb c2 "=" then [(i0 * 4 + i1 / 16)%Z]
         else [(i0 * 4 + i1 / 16)%Z; (i1 mod 16 * 16 + i2 / 4)%Z])
      else (i0 * 4 + i1 / 16)%Z :: (i1 mod 16 * 16 + i2 / 4)%Z
           :: (i2 mod 4 * 64 + i3)%Z :: atob_chars rest
  | _ => []
  end.

Definition atob (s : string) : list Z := atob_chars (list_ascii_of_string s).

(** ** [processAudioWithAI] *)

(** How the read and the decode end: [decodeAudioData] resolves with a
    buffer or rejects with an error, the 10 s decode timeout wins the
    race, the [FileReader] fails, or the overall 30 s timeout fires before
    the decode ends.  After a successful decode the 30 s timer, cleared
    only just before [resolve], can still fire while [extractVocals] or
    the encoder awaits (the [data()] reads of the limiter):
    [timer_fired] says whether it does. *)
Inductive decode_outcome :=
| Decoded (audioBuffer : AudioBuffer) (timer_fired : bool)
| DecodeRejected (msg : string)
| DecodeTimedOut
| ReadFailed
| ProcessingTimedOut.

(** [inl] is a rejection with the error's message, [inr] the resolved
    [{ vocals, accompaniment }]. *)
Definition processAudioWithAI (tf : option (tf_op -> bool)) (outputFormat : format_tag)
  (o : decode_outcome) : sum string (string * string) :=
  match o with
  | Decoded audioBuffer timer_fired =>
      if timer_fired then inl "Audio processing timed out after 30 seconds"%string
      else
        let '(vocals, accompaniment) := extractVocals tf audioBuffer in
        inr (audioBufferToBase64 vocals outputFormat,
             audioBufferToBase64 accompaniment outputFormat)
  | DecodeRejected msg => inl msg
  | DecodeTimedOut => inl "Audio decoding timed out"%string
  | ReadFailed => inl "Failed to read audio file"%string
  | ProcessingTimedOut => inl "Audio processing timed out after 30 seconds"%string
  end.

(** ** The original file as a data URL *)

(** [reader.readAsDataURL(inputFile)]: [data:<type>;base64,<payload>],
    with [application/octet-stream] for a file without a type. *)
Definition readAsDataURL (mime : string) (bytes : list Z) : string :=
  String.append "data:"
    (String.append (if String.eqb mime "" then "application/octet-stream" else mime)
       (String.append ";base64," (btoa bytes))).

(** [s.split(sep)] for a one-character separator. *)
Fixpoint split_on (sep : ascii) (s : string) : list string :=
  match s with
  | EmptyString => [EmptyString]
  | String c s' =>
      if Ascii.eqb c sep then EmptyString :: split_on sep s'
      else match split_on sep s' with
           | [] => [String c EmptyString]
           | p :: ps => String c p :: ps
           end
  end.

(** [(reader.result as string).split(",")[1]]; [None] is [undefined]. *)
Definition originalBase64 (dataURL : string) : option string :=
  split_on ","%char dataURL !! 1%nat.

Definition no_comma (s : string) : bool :=
  forallb (fun a => negb (Ascii.eqb a ",")) (list_ascii_of_string s).

(** ** The component state and [handleExtractVocals] *)

Record ExtractionResult := mkResult {
  res_vocals : string;
  res_accompaniment : string;
  res_original : string
}.

(** The component's [useState] fields; a [File] is represented by its name. *)
Record ExtractionState := mkState {
  inputFile : option string;
  isProcessing : bool;
  progress : Z;
  error : option string;
  result : option ExtractionResult;
  engineLoaded : bool
}.

Definition set_error (msg : option string) (s : ExtractionState) : ExtractionState :=
  mkState (inputFile s) (isProcessing s) (progress s) msg (result s) (engineLoaded s).

Definition msg_no_file : string := "Please select an audio file".
Definition msg_not_ready : string :=
  "Audio processing engine is not ready yet. Please wait a moment.".
Definition msg_init_failed : string := "Failed to initialize AI processing engine".

(** The synchronous part of [handleExtractVocals]; the boolean says
    whether [reader.readAsDataURL(inputFile)] was called, which is what
    leads to [processAudioWithAI] and its decode. *)
Definition handleExtractVocals (s : ExtractionState) : ExtractionState * bool :=
  if isProcessing s then (s, false)
  else match inputFile s with
       | None => (set_error (Some msg_no_file) s, false)
       | Some f =>
           if negb (engineLoaded s) then (set_error (Some msg_not_ready) s, false)
           else (mkState (Some f) true 0 None None (engineLoaded s), true)
       end.

(** The mount effect [initTensorFlow]: the WebGL backend, else the CPU
    backend; when both fail only the error is set. *)
Definition initTensorFlow (webgl_ok cpu_ok : bool) (s : ExtractionState) : ExtractionState :=
  if webgl_ok || cpu_ok
  then mkState (inputFile s) (isProcessing s) (progress s) (error s) (result s) true
  else set_error (Some msg_init_failed) s.

Definition initialState : ExtractionState := mkState None false 0 None None false.

(** Events of the component: a click on the button, a file chosen, the
    end of the engine initialisation, the [reader.onload] progress step,
    and the end of a run (result or error), after which the [finally]
    block resets [isProcessing] and [progress]. *)
Inductive event :=
| Click
| SelectFile (f : option string)
| InitEngine (webgl_ok cpu_ok : bool)
| Loaded
| RunDone (r : ExtractionResult)
| RunFailed (msg : string).

(** The state and the number of runs in flight (started, not yet finished). *)
Definition World : Type := ExtractionState * nat.

Definition step (w : World) (e : event) : option World :=
  let '(s, active) := w in
  match e with
  | Click =>
      let '(s', started) := handleExtractVocals s in
      Some (s', if started then Datatypes.S active else active)
  | SelectFile f =>
      Some (mkState f (isProcessing s) (progress s) (error s) (result s) (engineLoaded s), active)
  | InitEngine w1 w2 => Some (initTensorFlow w1 w2 s, active)
  | Loaded =>
      match active with
      | O => None
      | Datatypes.S _ =>
          Some (mkState (inputFile s) (isProcessing s) 25 (error s) (result s) (engineLoaded s),
                active)
      end
  | RunDone r =>
      match active with
      | O => None
      | Datatypes.S n =>
          Some (mkState (inputFile s) false 0 (error s) (Some r) (engineLoaded s), n)
      end
  | RunFailed msg =>
      match active with
      | O => None
      | Datatypes.S n =>
          Some (mkState (inputFile s) false 0 (Some msg) (result s) (engineLoaded s), n)
      end
  end.

Fixpoint run_events (w : World) (evs : list event) : option World :=
  match evs with
  | [] => Some w
  | e :: evs' => match step w e with Some w' => run_events w' evs' | None => None end
  end.

(** ** [AudioUpload]: the file picker used for [inputFile] *)

(** A [File], by the two fields the picker reads. *)
Record File := mkFile {
  file_type : string;
  file_size : Z
}.

Definition maxSize : Z := 50 * 1024 * 1024.

Definition msg_not_audio : string := "Please upload an audio file".
Definition msg_too_large : string := "File size must be less than 50MB".

(** [validateFile]: the [setError] it performs and its result. *)
Definition validateFile (selectedFile : File) : option string * bool :=
  if negb (String.prefix "audio/" (file_type selectedFile))
  then (Some msg_not_audio, false)
  else if (maxSize <? file_size selectedFile)%Z
  then (Some msg_too_large, false)
  else (None, true).

(** The picker's [error] state and the last value passed to
    [onFileChange] (the parent's [setInputFile]). *)
Record UploadState := mkUpload {
  upload_error : option string;
  forwarded : option File
}.

(** [handleFileSelect] *)
Definition handleFileSelect (u : UploadState) (selectedFile : File) : UploadState :=
  let '(err, ok) := validateFile selectedFile in
  mkUpload err (if ok then Some selectedFile else forwarded u).

(** [handleDrop], with the dropped files; [files[0]] of an empty list is
    [undefined]. *)
Definition handleDrop (disabled : bool) (u : UploadState) (files : list File) : UploadState :=
  if disabled then u
  else match files with
       | droppedFile :: _ => handleFileSelect u droppedFile
       | [] => u
       end.

(** [handleInputChange]: [event.target.files?.[0] || null].  The input is
    rendered with [disabled={disabled}], and a disabled input fires no
    change event. *)
Definition handleInputChange (u : UploadState) (files : list File) : UploadState :=
  match files with
  | selectedFile :: _ => handleFileSelect u selectedFile
  | [] => u
  end.

(** [handleRemoveFile]: [onFileChange(null)] and [setError(null)]; its
    button is rendered only when the picker is enabled. *)
Definition handleRemoveFile (u : UploadState) : UploadState := mkUpload None None.

(** The picker's events: a drop with the [disabled] prop of the moment, a
    change of the file input, a click on Remove. *)
Inductive picker_event :=
| PickerDrop (disabled : bool) (files : list File)
| PickerInput (files : list File)
| PickerRemove.

Definition picker_step (u : UploadState) (e : picker_event) : UploadState :=
  match e with
  | PickerDrop disabled files => handleDrop disabled u files
  | PickerInput files => handleInputChange u files
  | PickerRemove => handleRemoveFile u
  end.

(** ** Derived notions and example inputs *)

(** At most one run is active, and exactly when [isProcessing] is set. *)
Definition guard_inv (w : World) : Prop :=
  (w.2 <= 1)%nat /\ (isProcessing w.1 = true <-> w.2 = 1%nat).

Definition stereo_example : AudioBuffer :=
  mkAudioBuffer 44100 3 [[1; 0; 0.5]; [0; 0; 0.5]].

(** One step of the peak loop: [if (abs > max) max = abs]. *)
Definition peak_step (m x : R) : R := if Rlt_dec m (Rabs x) then Rabs x else m.

(** The values read back from the limiter's tensors. *)
Definition enhanced_data (L : nat) (b : Bufs) : list R * list R :=
  let '(vl, vr, al, ar) := b in
  (map tanh (map (fun x => x * 1.2) (tensor2d [vl; vr])),
   map tanh (map (fun x => x * 1.1) (tensor2d [al; ar]))).

(** The example input of the spec: two channels, constant [c]. *)
Definition constant_stereo (L : nat) (c : R) : AudioBuffer :=
  mkAudioBuffer 44100 L [replicate L c; replicate L c].

(** Two seconds at 44100 Hz. *)
Definition two_seconds : nat := Pos.to_nat 88200.

(** Whether the soft limiter's values reach the buffers: [tf] loaded and
    no throw before the copy back. *)
Definition limiter_applied (tf : option (tf_op -> bool)) : bool :=
  match tf with
  | None => false
  | Some throws => negb (throws OpTensor2d || throws OpMul || throws OpTanh || throws OpData)
  end.

Definition idle_no_file : ExtractionState := mkState None false 0 None None true.

Definition dispose_throws (o : tf_op) : bool :=
  match o with OpDispose => true | _ => false end.

Definition mono_1024_half : AudioBuffer := mkAudioBuffer 44100 1024 [replicate 1024 0.5].

(** A mono input of 1100 samples of 0.5: one window, at start 0, is
    processed ([0 < 1100 - 1024]). *)
Definition mono_1100_half : AudioBuffer := mkAudioBuffer 44100 1100 [replicate 1100 0.5].

(** The header bytes as the reader expects them. *)
Definition wav_header_spec (ab : AudioBuffer) : list Z :=
  let C := numberOfChannels ab in
  let n := Z.of_nat (ab_length ab * C * 2) in
  tag "RIFF" ++ u32_bytes (36 + n) ++ tag "WAVE" ++ tag "fmt "
  ++ u32_bytes 16 ++ u16_bytes 1 ++ u16_bytes (Z.of_nat C)
  ++ u32_bytes (sampleRate ab) ++ u32_bytes (sampleRate ab * Z.of_nat C * 2)
  ++ u16_bytes (Z.of_nat C * 2) ++ u16_bytes 16 ++ tag "data" ++ u32_bytes n.

Definition byte_range (b : Z) : Prop := (0 <= b < 256)%Z.

Definition wav_example : AudioBuffer :=
  mkAudioBuffer 44100 2 [[0.5; -1]; [0; 2]].

(** What the progress bar and the result panel show: no progress outside
    a run, and no old result during one, where the progress is 0 or 25. *)
Definition display_inv (s : ExtractionState) : Prop :=
  (isProcessing s = false -> progress s = 0%Z) /\
  (isProcessing s = true -> result s = None /\ (progress s = 0%Z \/ progress s = 25%Z)).

(** A file the picker accepts: an [audio/] type and at most [maxSize] bytes. *)
Definition accepted (f : File) : Prop :=
  String.prefix "audio/" (file_type f) = true /\ (file_size f <= maxSize)%Z.

(** A sequence of events on the picker. *)
Definition run_picker (u : UploadState) (evs : list picker_event) : UploadState :=
  fold_left picker_step evs u.

(** The window starts the mono loop reaches:
    [start = j * hopSize] while [start < length - windowSize]. *)
Definition processed_windows (L : nat) : list nat :=
  List.filter (fun s => (Z.of_nat s <? Z.of_nat L - Z.of_nat windowSize)%Z)
    (map (fun j => j * hopSize)%nat (seq 0 (Datatypes.S (L / hopSize)))).

(** The overlap-add at sample [k] over the windows starting in [starts]. *)
Definition window_sum (weight : nat -> R) (starts : list nat) (x : list R) (k : nat) : R :=
  fold_right Rplus 0
    (map (fun s => if (s <=? k)%nat && (k <? s + windowSize)%nat
                   then rd x k * weight (k - s)%nat else 0) starts).

(** ** Reading samples back from the WAV bytes *)

(** The 16-bit value the encoder stores for sample [i] of channel [ch]:
    [Math.max(-1, Math.min(1, x)) * 0x7fff], truncated by [setInt16]. *)
Definition sample_val (ab : AudioBuffer) (i ch : nat) : Z :=
  js_trunc (Rmax (-1) (Rmin 1 (rd (getChannelData ab ch) i)) * 32767).

Definition byte_at (bs : list Z) (j : nat) : Z := default 0%Z (bs !! j).

(** [DataView.getInt16(off, true)]. *)
Definition int16_at (bs : list Z) (off : nat) : Z :=
  let u := (byte_at bs off + 256 * byte_at bs (Datatypes.S off))%Z in
  if (32768 <=? u)%Z then (u - 65536)%Z else u.

(** Sample [i] of channel [ch] of an interleaved 16-bit PCM file with [C]
    channels. *)
Definition wav_sample (bs : list Z) (C i ch : nat) : Z :=
  int16_at bs (44 + 2 * (i * C + ch)).

(** Two bytes at [p] and [p + 1] holding [u16_bytes n]. *)
Definition pair_at (v : list Z) (p : nat) (n : Z) : Prop :=
  v !! p = Some (nth 0 (u16_bytes n) 0%Z) /\
  v !! Datatypes.S p = Some (nth 1 (u16_bytes n) 0%Z).

(** * Proofs *)

(** ** Arrays and loops *)

Lemma rd_lookup (a : list R) (i : nat) :
  (i < length a)%nat -> a !! i = Some (rd a i).
Proof.
  intros Hi. unfold rd. destruct (a !! i) eqn:E; [done|].
  apply lookup_ge_None in E. lia.
Qed.

Lemma rd_insert_eq (a : list R) (i : nat) (x : R) :
  (i < length a)%nat -> rd (<[i := x]> a) i = x.
Proof. intros Hi. unfold rd. by rewrite list_lookup_insert_eq. Qed.

Lemma rd_insert_ne (a : list R) (i j : nat) (x : R) :
  i <> j -> rd (<[i := x]> a) j = rd a j.
Proof. intros Hij. unfold rd. by rewrite list_lookup_insert_ne. Qed.

Lemma lookup_map_R {A B} (f : A -> B) (l : list A) (i : nat) :
  map f l !! i = f <$> (l !! i).
Proof. revert i; induction l as [|x l IH]; intros [|i]; simpl; auto. Qed.

Lemma for_loop_ind {St} (P : nat -> St -> Prop) (body : nat -> St -> St)
  (n lo : nat) (s : St) :
  P lo s ->
  (forall i s, (lo <= i < lo + n)%nat -> P i s -> P (Datatypes.S i) (body i s)) ->
  P (lo + n)%nat (for_loop n lo body s).
Proof.
  revert lo s; induction n as [|n IH]; intros lo s H0 Hstep; simpl.
  - by rewrite Nat.add_0_r.
  - replace (lo + Datatypes.S n)%nat with (Datatypes.S lo + n)%nat by lia.
    apply IH.
    + apply Hstep; [lia | exact H0].
    + intros i s' Hi HP. apply Hstep; [lia | exact HP].
Qed.

(** ** The stereo branch *)

Lemma first_pass_spec (L : nat) (left right : list R) :
  length left = L -> length right = L ->
  first_pass L left right =
    (center_spec left right, side_spec left left right, side_spec right left right).
Proof.
  intros Hl Hr. unfold first_pass.
  set (cv := fun j => (rd left j + rd right j) / 2).
  pose (P := fun (i : nat) (t : list R * list R * list R) =>
    let '(c, sl, sr) := t in
    length c = L /\ length sl = L /\ length sr = L /\
    forall j, (j < i)%nat ->
      c !! j = Some (cv j) /\ sl !! j = Some (rd left j - cv j) /\
      sr !! j = Some (rd right j - cv j)).
  assert (HP : P (0 + L)%nat (for_loop L 0
    (fun i '(centerChannel, sideChannelLeft, sideChannelRight) =>
       let left0 := rd left i in
       let right0 := rd right i in
       let centerChannel0 := <[i := (left0 + right0) / 2]> centerChannel in
       (centerChannel0,
        <[i := left0 - rd centerChannel0 i]> sideChannelLeft,
        <[i := right0 - rd centerChannel0 i]> sideChannelRight))
    (f32_new L, f32_new L, f32_new L))).
  { apply for_loop_ind.
    - unfold P, f32_new. rewrite !length_replicate. repeat split; try lia.
    - intros i [[c sl] sr] Hi (Hc & Hsl & Hsr & Hj). cbn.
      rewrite rd_insert_eq by lia.
      rewrite !length_insert. repeat split; try lia.
      all: destruct (decide (j = i)) as [->|Hne];
        [ rewrite list_lookup_insert_eq by lia; reflexivity
        | rewrite list_lookup_insert_ne by congruence; apply Hj; lia ]. }
  destruct (for_loop _ _ _ _) as [[c sl] sr].
  destruct HP as (Hc & Hsl & Hsr & Hj).
  assert (Hcs : c = center_spec left right).
  { apply list_eq; intros j. unfold center_spec. rewrite lookup_zip_with.
    destruct (decide (j < L)%nat).
    - rewrite (rd_lookup left), (rd_lookup right) by lia. simpl.
      apply Hj; lia.
    - rewrite (proj2 (lookup_ge_None left j)), (proj2 (lookup_ge_None c j)) by lia.
      reflexivity. }
  subst c. f_equal; [f_equal|].
  - apply list_eq; intros j. unfold side_spec. rewrite lookup_zip_with.
    destruct (decide (j < L)%nat).
    + rewrite (rd_lookup left) by lia. simpl.
      rewrite (proj1 (Hj j ltac:(lia))). apply Hj; lia.
    + rewrite (proj2 (lookup_ge_None left j)), (proj2 (lookup_ge_None sl j)) by lia.
      reflexivity.
  - apply list_eq; intros j. unfold side_spec. rewrite lookup_zip_with.
    destruct (decide (j < L)%nat).
    + rewrite (rd_lookup right) by lia. simpl.
      rewrite (proj1 (Hj j ltac:(lia))). apply Hj; lia.
    + rewrite (proj2 (lookup_ge_None right j)), (proj2 (lookup_ge_None sr j)) by lia.
      reflexivity.
Qed.

Lemma smooth_step_spec (p x : R) : smooth_step p x = p * 0.7 + x * 0.3.
Proof. unfold smooth_step, smoothingFactor. lra. Qed.

Lemma lookup_ema_spec (x : list R) (j : nat) :
  (j < length x)%nat -> ema_spec x !! j = Some (ema_at x j).
Proof.
  intros Hj. unfold ema_spec. rewrite lookup_map_R, lookup_seq_lt by lia.
  reflexivity.
Qed.

Lemma length_ema_spec (x : list R) : length (ema_spec x) = length x.
Proof. unfold ema_spec. by rewrite length_map, length_seq. Qed.

Lemma list_eq_prefix (a b : list R) (L : nat) :
  length a = L -> length b = L ->
  (forall j, (j < L)%nat -> a !! j = b !! j) -> a = b.
Proof.
  intros Ha Hb H. apply list_eq; intros j.
  destruct (decide (j < L)%nat); [by apply H|].
  rewrite (proj2 (lookup_ge_None a j)), (proj2 (lookup_ge_None b j)) by lia.
  reflexivity.
Qed.

Lemma second_pass_spec (L : nat) (c sl sr : list R) :
  (1 <= L)%nat -> length c = L -> length sl = L -> length sr = L ->
  second_pass L c sl sr (f32_new L, f32_new L, f32_new L, f32_new L) =
    (ema_spec c, ema_spec c, ema_spec sl, ema_spec sr).
Proof.
  intros HL Hc Hsl Hsr. unfold second_pass.
  pose (P := fun (i : nat) (t : Bufs) =>
    let '(vl, vr, al, ar) := t in
    length vl = L /\ length vr = L /\ length al = L /\ length ar = L /\
    forall j, (j < i)%nat ->
      vl !! j = Some (ema_at c j) /\ vr !! j = Some (ema_at c j) /\
      al !! j = Some (ema_at sl j) /\ ar !! j = Some (ema_at sr j)).
  match goal with
  | |- for_loop ?n ?lo ?body ?s0 = _ =>
      assert (HP : P (lo + n)%nat (for_loop n lo body s0))
  end.
  { apply for_loop_ind.
    - unfold P, f32_new. rewrite !length_insert, !length_replicate.
      repeat split; try lia;
        (assert (j = 0)%nat as -> by lia;
         rewrite list_lookup_insert_eq by (rewrite length_replicate; lia);
         reflexivity).
    - intros i [[[vl vr] al] ar] Hi (Hvl & Hvr & Hal & Har & Hj). cbn.
      destruct i as [|i]; [lia|].
      assert (Hprev := Hj i ltac:(lia)).
      replace (Datatypes.S i - 1)%nat with i by lia.
      destruct Hprev as (E1 & E2 & E3 & E4).
      assert (R1 : rd vl i = ema_at c i) by (unfold rd; rewrite E1; reflexivity).
      assert (R2 : rd vr i = ema_at c i) by (unfold rd; rewrite E2; reflexivity).
      assert (R3 : rd al i = ema_at sl i) by (unfold rd; rewrite E3; reflexivity).
      assert (R4 : rd ar i = ema_at sr i) by (unfold rd; rewrite E4; reflexivity).
      rewrite R1, R2, R3, R4, !length_insert. repeat split; try lia.
      all: destruct (decide (j = Datatypes.S i)) as [->|Hne];
        [ rewrite list_lookup_insert_eq by lia; cbn;
          rewrite smooth_step_spec; reflexivity
        | rewrite list_lookup_insert_ne by congruence; apply Hj; lia ]. }
  destruct (for_loop _ _ _ _) as [[[vl vr] al] ar].
  replace (1 + (L - 1))%nat with L in HP by lia.
  destruct HP as (Hvl & Hvr & Hal & Har & Hj).
  repeat f_equal; apply (list_eq_prefix _ _ L);
    rewrite ?length_ema_spec; try lia; intros j Hjl;
    rewrite lookup_ema_spec by lia; apply Hj; lia.
Qed.

Lemma length_getChannelData (ab : AudioBuffer) (c : nat) :
  well_formed ab -> (c < numberOfChannels ab)%nat ->
  length (getChannelData ab c) = ab_length ab.
Proof.
  intros Hwf Hc. unfold getChannelData, numberOfChannels in *.
  destruct (ab_data ab !! c) as [ch|] eqn:E.
  - simpl. exact (proj1 (Forall_lookup _ _) Hwf c ch E).
  - apply lookup_ge_None in E. lia.
Qed.

Lemma length_center_spec (l r : list R) (L : nat) :
  length l = L -> length r = L -> length (center_spec l r) = L.
Proof. intros. unfold center_spec. rewrite length_zip_with. lia. Qed.

Lemma length_side_spec (o l r : list R) (L : nat) :
  length o = L -> length l = L -> length r = L -> length (side_spec o l r) = L.
Proof.
  intros. unfold side_spec. rewrite length_zip_with.
  rewrite (length_center_spec l r L) by auto. lia.
Qed.

(** [C1] For a stereo input (at least two channels) of length [L >= 1],
    the stereo branch, before the enhancement, writes into both vocal
    channels the smoothing [y[0] = x[0], y[i] = y[i-1]*0.7 + x[i]*0.3] of
    [center[i] = (left[i] + right[i]) / 2], and into the left and right
    accompaniment channels the same smoothing of
    [sideLeft[i] = left[i] - center[i]] and [sideRight[i] = right[i] - center[i]],
    with [left], [right] the input's channels 0 and 1. *)
Theorem stereo_pass_smooths_center_side (ab : AudioBuffer) :
  well_formed ab -> (2 <= numberOfChannels ab)%nat -> (1 <= ab_length ab)%nat ->
  let left := getChannelData ab 0 in
  let right := getChannelData ab 1 in
  stereo_pass (ab_length ab) left right =
    (ema_spec (center_spec left right), ema_spec (center_spec left right),
     ema_spec (side_spec left left right), ema_spec (side_spec right left right)).
Proof.
  intros Hwf HC HL left right.
  assert (Hl : length left = ab_length ab) by (apply length_getChannelData; auto; lia).
  assert (Hr : length right = ab_length ab) by (apply length_getChannelData; auto; lia).
  unfold stereo_pass. rewrite (first_pass_spec (ab_length ab)) by auto.
  apply second_pass_spec; auto.
  - by apply length_center_spec.
  - by apply length_side_spec.
  - by apply length_side_spec.
Qed.

Lemma stereo_pass_smooths_center_side_witness :
  well_formed stereo_example /\
  stereo_pass 3 [1; 0; 0.5] [0; 0; 0.5] =
    (ema_spec (center_spec [1; 0; 0.5] [0; 0; 0.5]),
     ema_spec (center_spec [1; 0; 0.5] [0; 0; 0.5]),
     ema_spec (side_spec [1; 0; 0.5] [1; 0; 0.5] [0; 0; 0.5]),
     ema_spec (side_spec [0; 0; 0.5] [1; 0; 0.5] [0; 0; 0.5])).
Proof.
  assert (Hwf : well_formed stereo_example)
    by (repeat constructor).
  split; [exact Hwf|].
  exact (stereo_pass_smooths_center_side stereo_example Hwf
           ltac:(cbv; lia) ltac:(cbv; lia)).
Defined.

(** ** Normalisation *)

Lemma peak_fold (ch : list R) : peak ch = fold_left peak_step ch 0.
Proof. reflexivity. Qed.

Lemma fold_peak_ge_init (ch : list R) (m : R) : m <= fold_left peak_step ch m.
Proof.
  revert m; induction ch as [|x ch IH]; intros m; simpl; [lra|].
  unfold peak_step at 2. destruct (Rlt_dec m (Rabs x)).
  - specialize (IH (Rabs x)). lra.
  - apply IH.
Qed.

Lemma fold_peak_ge_elem (ch : list R) (m x : R) :
  In x ch -> Rabs x <= fold_left peak_step ch m.
Proof.
  revert m; induction ch as [|y ch IH]; intros m Hin; simpl in *; [done|].
  destruct Hin as [->|Hin]; [|by apply IH].
  unfold peak_step at 2. destruct (Rlt_dec m (Rabs x)).
  - apply fold_peak_ge_init.
  - pose proof (fold_peak_ge_init ch m). lra.
Qed.

Lemma fold_peak_le (ch : list R) (m B : R) :
  m <= B -> (forall x, In x ch -> Rabs x <= B) -> fold_left peak_step ch m <= B.
Proof.
  revert m; induction ch as [|y ch IH]; intros m Hm Hall; simpl; [done|].
  apply IH; [|intros; apply Hall; simpl; auto].
  unfold peak_step. destruct (Rlt_dec m (Rabs y)); [apply Hall; simpl; auto|done].
Qed.

Lemma fold_peak_attained (ch : list R) (m : R) :
  fold_left peak_step ch m = m \/ exists x, In x ch /\ fold_left peak_step ch m = Rabs x.
Proof.
  revert m; induction ch as [|y ch IH]; intros m; simpl; [auto|].
  assert (Hs : peak_step m y = Rabs y \/ peak_step m y = m)
    by (unfold peak_step; destruct (Rlt_dec m (Rabs y)); auto).
  destruct (IH (peak_step m y)) as [E|(x & Hx & E)].
  - destruct Hs as [Hs|Hs]; rewrite E, Hs; [right; exists y; auto | left; auto].
  - right. exists x. auto.
Qed.

Lemma peak_nonneg (ch : list R) : 0 <= peak ch.
Proof. apply fold_peak_ge_init. Qed.

Lemma peak_ge (ch : list R) (x : R) : In x ch -> Rabs x <= peak ch.
Proof. apply fold_peak_ge_elem. Qed.

Lemma peak_le (ch : list R) (B : R) :
  0 <= B -> (forall x, In x ch -> Rabs x <= B) -> peak ch <= B.
Proof. apply fold_peak_le. Qed.

Lemma peak_is_max (ch : list R) :
  ch <> [] -> exists x, In x ch /\ peak ch = Rabs x.
Proof.
  intros Hne. destruct (fold_peak_attained ch 0) as [E|H]; [|exact H].
  destruct ch as [|y ch]; [done|]. exists y. split; [simpl; auto|].
  pose proof (peak_ge (y :: ch) y ltac:(simpl; auto)). pose proof (Rabs_pos y).
  rewrite !peak_fold in *. lra.
Qed.

Lemma gain_pos (p : R) : 0 < p -> 0 < Rmin 1 (0.9 / p).
Proof.
  intros Hp. apply Rmin_glb_lt; [lra|]. apply Rdiv_lt_0_compat; lra.
Qed.

Lemma gain_le (p : R) : 0 < p -> p * Rmin 1 (0.9 / p) <= 0.9.
Proof.
  intros Hp. pose proof (Rmin_r 1 (0.9 / p)).
  apply Rle_trans with (p * (0.9 / p)).
  - apply Rmult_le_compat_l; lra.
  - right. field. lra.
Qed.

Lemma gain_one (p : R) : 0 < p -> p <= 0.9 -> Rmin 1 (0.9 / p) = 1.
Proof.
  intros Hp Hle. apply Rmin_left.
  apply Rmult_le_reg_r with p; [lra|].
  replace (0.9 / p * p) with 0.9 by (field; lra). lra.
Qed.

Lemma map_mult_1 (ch : list R) : map (fun x => x * 1) ch = ch.
Proof.
  induction ch as [|x ch IH]; simpl; [done|]. by rewrite Rmult_1_r, IH.
Qed.

Lemma normalize_channel_peak_le (ch : list R) : peak (normalize_channel ch) <= 0.9.
Proof.
  unfold normalize_channel. destruct (Rlt_dec 0 (peak ch)) as [Hp|Hp].
  - apply peak_le; [lra|]. intros y Hy. apply in_map_iff in Hy.
    destruct Hy as (x & <- & Hx).
    pose proof (gain_pos _ Hp). pose proof (gain_le _ Hp).
    rewrite Rabs_mult, (Rabs_right (Rmin _ _)) by lra.
    apply Rle_trans with (peak ch * Rmin 1 (0.9 / peak ch)); [|done].
    apply Rmult_le_compat_r; [lra|]. by apply peak_ge.
  - pose proof (peak_nonneg ch). lra.
Qed.

Lemma normalize_channel_id (ch : list R) : peak ch <= 0.9 -> normalize_channel ch = ch.
Proof.
  intros Hle. unfold normalize_channel. destruct (Rlt_dec 0 (peak ch)) as [Hp|Hp]; [|done].
  rewrite gain_one by done. apply map_mult_1.
Qed.

Lemma peak_zeros (ch : list R) : Forall (fun x => x = 0) ch -> peak ch = 0.
Proof.
  intros H. apply Rle_antisym; [|apply peak_nonneg].
  apply peak_le; [lra|]. intros x Hx.
  rewrite (proj1 (List.Forall_forall _ _) H x Hx), Rabs_R0. lra.
Qed.

(** [C3] Every output channel is the normalisation of the separated
    channel; the normaliser takes [peak = max |sample|] (0 on an empty
    channel) and, when [peak > 0], multiplies every sample by
    [min(1, 0.9 / peak)], otherwise leaves the channel alone.  Hence the
    normalised peak is at most 0.9, a channel of peak at most 0.9 is left
    unchanged, and an all-zero channel is not modified. *)
Theorem normalizer_peak_gain (tf : option (tf_op -> bool)) (ab : AudioBuffer) :
  ab_data (fst (extractVocals tf ab)) = map normalize_channel (fst (separate tf ab)) /\
  ab_data (snd (extractVocals tf ab)) = map normalize_channel (snd (separate tf ab)) /\
  forall ch : list R,
    ((forall x, In x ch -> Rabs x <= peak ch) /\ 0 <= peak ch /\
     (ch <> [] -> exists x, In x ch /\ peak ch = Rabs x)) /\
    (0 < peak ch -> normalize_channel ch = map (fun x => x * Rmin 1 (0.9 / peak ch)) ch) /\
    (peak ch <= 0 -> normalize_channel ch = ch) /\
    peak (normalize_channel ch) <= 0.9 /\
    (peak ch <= 0.9 -> normalize_channel ch = ch) /\
    (Forall (fun x => x = 0) ch -> normalize_channel ch = ch).
Proof.
  split; [unfold extractVocals; by destruct (separate tf ab)|].
  split; [unfold extractVocals; by destruct (separate tf ab)|].
  intros ch. split; [split; [|split]|split; [|split; [|split; [|split]]]].
  - apply peak_ge.
  - apply peak_nonneg.
  - apply peak_is_max.
  - intros Hp. unfold normalize_channel. by destruct (Rlt_dec 0 (peak ch)).
  - intros Hp. unfold normalize_channel. destruct (Rlt_dec 0 (peak ch)); [lra|done].
  - apply normalize_channel_peak_le.
  - apply normalize_channel_id.
  - intros Hz. apply normalize_channel_id. rewrite peak_zeros by done. lra.
Qed.

(** [C4] The normaliser is idempotent: normalising a stem twice gives
    the same channels as normalising it once. *)
Theorem normalizer_idempotent (chs : list (list R)) :
  normalize_stem (normalize_stem chs) = normalize_stem chs.
Proof.
  unfold normalize_stem. rewrite map_map. apply map_ext. intros ch.
  apply normalize_channel_id, normalize_channel_peak_le.
Qed.

(** ** The try/catch around the soft limiter *)

(** A throw before the copy back leaves the buffers untouched; otherwise
    the copy back has happened, whether or not a [dispose] throws. *)
Lemma tf_block_result (throws : tf_op -> bool) (L : nat) (b : Bufs) :
  tf_block throws L b =
    if throws OpTensor2d || throws OpMul || throws OpTanh || throws OpData
    then inr b
    else
      let b' := copy_back L (enhanced_data L b).1 (enhanced_data L b).2 b in
      if throws OpDispose then inr b' else inl (tt, b').
Proof.
  destruct b as [[[vl vr] al] ar].
  unfold tf_block, try_bind, try_get, try_put, tf_call, enhanced_data.
  destruct (throws OpTensor2d), (throws OpMul), (throws OpTanh), (throws OpData),
    (throws OpDispose); reflexivity.
Qed.

Lemma enhance_before_copy (throws : tf_op -> bool) (L : nat) (b : Bufs) :
  throws OpTensor2d || throws OpMul || throws OpTanh || throws OpData = true ->
  enhance (Some throws) L b = b.
Proof. intros H. unfold enhance. by rewrite tf_block_result, H. Qed.

Lemma enhance_after_copy (throws : tf_op -> bool) (L : nat) (b : Bufs) :
  throws OpTensor2d || throws OpMul || throws OpTanh || throws OpData = false ->
  enhance (Some throws) L b =
    copy_back L (enhanced_data L b).1 (enhanced_data L b).2 b.
Proof.
  intros H. unfold enhance. rewrite tf_block_result, H. cbn.
  by destruct (throws OpDispose).
Qed.

Lemma copy_back_spec (L : nat) (vd ad : list R) (b : Bufs) :
  length vd = (2 * L)%nat -> length ad = (2 * L)%nat ->
  length b.1.1.1 = L -> length b.1.1.2 = L -> length b.1.2 = L -> length b.2 = L ->
  copy_back L vd ad b = (take L vd, drop L vd, take L ad, drop L ad).
Proof.
  destruct b as [[[vl vr] al] ar]; cbn. intros Hvd Had H1 H2 H3 H4.
  unfold copy_back.
  pose (P := fun (i : nat) (t : Bufs) =>
    let '(vl, vr, al, ar) := t in
    length vl = L /\ length vr = L /\ length al = L /\ length ar = L /\
    forall j, (j < i)%nat ->
      vl !! j = Some (rd vd j) /\ vr !! j = Some (rd vd (j + L)) /\
      al !! j = Some (rd ad j) /\ ar !! j = Some (rd ad (j + L))).
  match goal with
  | |- for_loop ?n ?lo ?body ?s0 = _ =>
      assert (HP : P (lo + n)%nat (for_loop n lo body s0))
  end.
  { apply for_loop_ind.
    - cbn. repeat split; auto; intros; lia.
    - intros i [[[vl' vr'] al'] ar'] Hi (E1 & E2 & E3 & E4 & Hj). cbn.
      rewrite !length_insert. repeat split; try lia.
      all: destruct (decide (j = i)) as [->|Hne];
        [ rewrite list_lookup_insert_eq by lia; reflexivity
        | rewrite list_lookup_insert_ne by congruence; apply Hj; lia ]. }
  destruct (for_loop _ _ _ _) as [[[vl' vr'] al'] ar'].
  destruct HP as (E1 & E2 & E3 & E4 & Hj).
  repeat f_equal; apply (list_eq_prefix _ _ L);
    rewrite ?length_take, ?length_drop; try lia; intros j Hjl.
  - rewrite lookup_take_lt by lia. rewrite (rd_lookup vd) by lia. apply Hj; lia.
  - rewrite lookup_drop, (rd_lookup vd) by lia. rewrite (proj1 (proj2 (Hj j Hjl))).
    do 2 f_equal; lia.
  - rewrite lookup_take_lt by lia. rewrite (rd_lookup ad) by lia. apply Hj; lia.
  - rewrite lookup_drop, (rd_lookup ad) by lia. rewrite (proj2 (proj2 (proj2 (Hj j Hjl)))).
    do 2 f_equal; lia.
Qed.

(** ** Constant input *)

Lemma zip_with_replicate {A B C} (f : A -> B -> C) (n : nat) (a : A) (b : B) :
  zip_with f (replicate n a) (replicate n b) = replicate n (f a b).
Proof. induction n as [|n IH]; simpl; [done|]. by rewrite IH. Qed.

Lemma map_replicate {A B} (f : A -> B) (n : nat) (a : A) :
  map f (replicate n a) = replicate n (f a).
Proof. induction n as [|n IH]; simpl; [done|]. by rewrite IH. Qed.

Lemma rd_replicate (n j : nat) (c : R) : (j < n)%nat -> rd (replicate n c) j = c.
Proof. intros Hj. unfold rd. by rewrite lookup_replicate_2. Qed.

Lemma ema_spec_replicate (n : nat) (c : R) : ema_spec (replicate n c) = replicate n c.
Proof.
  apply (list_eq_prefix _ _ n); rewrite ?length_ema_spec, ?length_replicate; auto.
  intros j Hj. rewrite lookup_ema_spec by (rewrite length_replicate; lia).
  rewrite lookup_replicate_2 by lia. f_equal.
  induction j as [|j IH]; simpl.
  - by apply rd_replicate.
  - rewrite IH by lia. rewrite rd_replicate by lia. lra.
Qed.

Lemma stereo_pass_constant (L : nat) (c : R) :
  (1 <= L)%nat ->
  stereo_pass L (replicate L c) (replicate L c) =
    (replicate L c, replicate L c, replicate L 0, replicate L 0).
Proof.
  intros HL. unfold stereo_pass.
  rewrite first_pass_spec by apply length_replicate.
  unfold side_spec, center_spec. rewrite !zip_with_replicate.
  rewrite second_pass_spec by (rewrite ?length_replicate; lia).
  rewrite !ema_spec_replicate.
  replace ((c + c) / 2) with c by lra. replace (c - c) with 0 by lra.
  reflexivity.
Qed.

Lemma tanh_0 : tanh 0 = 0.
Proof.
  unfold tanh, sinh. rewrite Ropp_0, Rminus_diag. unfold Rdiv. ring.
Qed.

Lemma tanh_lt_1 (x : R) : tanh x < 1.
Proof.
  unfold tanh, sinh, cosh. pose proof (exp_pos x). pose proof (exp_pos (- x)).
  apply Rmult_lt_reg_r with ((exp x + exp (- x)) / 2); [lra|].
  replace ((exp x - exp (- x)) / 2 / ((exp x + exp (- x)) / 2) * ((exp x + exp (- x)) / 2))
    with ((exp x - exp (- x)) / 2) by (field; lra).
  lra.
Qed.

Lemma tanh_06_bounds : 0 < tanh 0.6 < 0.9.
Proof.
  unfold tanh, sinh, cosh.
  set (a := exp 0.6). set (b := exp (- (0.6))).
  assert (Ha : 0 < a) by apply exp_pos.
  assert (Hb : 0 < b) by apply exp_pos.
  assert (Hab : a * b = 1).
  { unfold a, b. rewrite <- exp_plus. replace (0.6 + - (0.6)) with 0 by lra. apply exp_0. }
  assert (Haa : a * a <= 9).
  { unfold a. rewrite <- exp_plus.
    apply Rle_trans with (exp 1 * exp 1).
    - rewrite <- exp_plus. left. apply exp_increasing. lra.
    - pose proof exp_le_3. pose proof (exp_pos 1). nra. }
  assert (Hlt : b < a) by (apply exp_increasing; lra).
  replace ((a - b) / 2 / ((a + b) / 2)) with ((a - b) / (a + b)) by (field; lra).
  split.
  - apply Rdiv_lt_0_compat; lra.
  - apply Rmult_lt_reg_r with (a + b); [lra|].
    replace ((a - b) / (a + b) * (a + b)) with (a - b) by (field; lra).
    nra.
Qed.

Lemma peak_replicate (n : nat) (v : R) : (1 <= n)%nat -> peak (replicate n v) = Rabs v.
Proof.
  intros Hn. destruct (peak_is_max (replicate n v)) as (x & Hx & E).
  - destruct n; [lia|]. discriminate.
  - apply list_elem_of_In in Hx. apply elem_of_replicate in Hx. by destruct Hx as [-> _].
Qed.

Lemma enhance_constant (tf : option (tf_op -> bool)) (L : nat) (v : R) :
  enhance tf L (replicate L v, replicate L v, replicate L 0, replicate L 0) =
    if limiter_applied tf
    then (replicate L (tanh (v * 1.2)), replicate L (tanh (v * 1.2)),
          replicate L 0, replicate L 0)
    else (replicate L v, replicate L v, replicate L 0, replicate L 0).
Proof.
  destruct tf as [throws|]; [|reflexivity]. unfold limiter_applied.
  destruct (throws OpTensor2d || throws OpMul || throws OpTanh || throws OpData) eqn:E.
  - by apply enhance_before_copy.
  - rewrite enhance_after_copy by exact E. cbn [negb].
    unfold enhanced_data, tensor2d. simpl. rewrite !app_nil_r, <- !replicate_add.
    rewrite !map_replicate, copy_back_spec by (simpl; rewrite ?length_replicate; lia).
    rewrite !take_replicate, !drop_replicate.
    replace (Nat.min L (L + L)) with L by lia. replace (L + L - L)%nat with L by lia.
    rewrite Rmult_0_l, tanh_0. reflexivity.
Qed.

Lemma extract_constant_half (tf : option (tf_op -> bool)) (L : nat) :
  (1 <= L)%nat ->
  let v := if limiter_applied tf then tanh 0.6 else 0.5 in
  separate tf (constant_stereo L 0.5) =
    ([replicate L v; replicate L v], [replicate L 0; replicate L 0]) /\
  extractVocals tf (constant_stereo L 0.5) =
    (mkAudioBuffer 44100 L [replicate L v; replicate L v],
     mkAudioBuffer 44100 L [replicate L 0; replicate L 0]) /\
  0 < v < 0.9.
Proof.
  intros HL v.
  assert (Hv : 0 < v < 0.9)
    by (unfold v; destruct (limiter_applied tf); [apply tanh_06_bounds | lra]).
  assert (Hsep : separate tf (constant_stereo L 0.5) =
    ([replicate L v; replicate L v], [replicate L 0; replicate L 0])).
  { unfold separate, constant_stereo, numberOfChannels, getChannelData. simpl.
    rewrite stereo_pass_constant, enhance_constant by done.
    unfold v. destruct (limiter_applied tf); [|reflexivity].
    replace (0.5 * 1.2) with 0.6 by lra. reflexivity. }
  split; [exact Hsep|]. split; [|exact Hv].
  unfold extractVocals. rewrite Hsep. unfold normalize_stem. simpl.
  rewrite !(normalize_channel_id (replicate L v)), !(normalize_channel_id (replicate L 0));
    try (rewrite peak_replicate by done; rewrite ?Rabs_R0, ?Rabs_right; lra).
  reflexivity.
Qed.

Lemma one_le_two_seconds : (1 <= two_seconds)%nat.
Proof. apply Nat.leb_le. vm_compute. reflexivity. Qed.

Lemma constant_stereo_pipeline_gen (tf : option (tf_op -> bool)) (L : nat) :
  (1 <= L)%nat ->
  let ab := constant_stereo L 0.5 in
  let v := if limiter_applied tf then tanh 0.6 else 0.5 in
  center_spec (getChannelData ab 0) (getChannelData ab 1) = replicate L 0.5 /\
  side_spec (getChannelData ab 0) (getChannelData ab 0) (getChannelData ab 1)
    = replicate L 0 /\
  side_spec (getChannelData ab 1) (getChannelData ab 0) (getChannelData ab 1)
    = replicate L 0 /\
  stereo_pass L (getChannelData ab 0) (getChannelData ab 1) =
    (replicate L 0.5, replicate L 0.5, replicate L 0, replicate L 0) /\
  extractVocals tf ab =
    (mkAudioBuffer 44100 L [replicate L v; replicate L v],
     mkAudioBuffer 44100 L [replicate L 0; replicate L 0]) /\
  peak (replicate L v) = v /\ 0 < v < 0.9 /\
  peak (replicate L 0) = 0.
Proof.
  intros HL ab v.
  destruct (extract_constant_half tf L HL) as (_ & Hext & Hv).
  unfold side_spec, center_spec, ab, constant_stereo, getChannelData. simpl.
  rewrite !zip_with_replicate.
  replace ((0.5 + 0.5) / 2) with 0.5 by lra. replace (0.5 - 0.5) with 0 by lra.
  split; [reflexivity|]. split; [reflexivity|]. split; [reflexivity|].
  split; [by apply stereo_pass_constant|].
  split; [exact Hext|]. split; [|split; [exact Hv|]].
  - rewrite peak_replicate by done. apply Rabs_right. unfold v in *. lra.
  - rewrite peak_replicate by done. apply Rabs_R0.
Qed.

(** [C5] (as amended) On the two-second 44100 Hz stereo input with both
    channels constant 0.5: the centre is constant 0.5 and both sides
    constant 0, the smoothed vocals are exactly 0.5 from the first sample
    on and the accompaniment exactly 0.  The output vocals are constant
    [v], with [v = tanh 0.6] when the soft limiter's values reach the
    buffers and [v = 0.5] otherwise; their peak is [v < 0.9], since the
    normaliser never amplifies.  The accompaniment channels stay 0, with
    peak 0. *)
Theorem constant_stereo_pipeline (tf : option (tf_op -> bool)) :
  let ab := constant_stereo two_seconds 0.5 in
  let v := if limiter_applied tf then tanh 0.6 else 0.5 in
  center_spec (getChannelData ab 0) (getChannelData ab 1) = replicate two_seconds 0.5 /\
  side_spec (getChannelData ab 0) (getChannelData ab 0) (getChannelData ab 1)
    = replicate two_seconds 0 /\
  side_spec (getChannelData ab 1) (getChannelData ab 0) (getChannelData ab 1)
    = replicate two_seconds 0 /\
  stereo_pass two_seconds (getChannelData ab 0) (getChannelData ab 1) =
    (replicate two_seconds 0.5, replicate two_seconds 0.5,
     replicate two_seconds 0, replicate two_seconds 0) /\
  extractVocals tf ab =
    (mkAudioBuffer 44100 two_seconds [replicate two_seconds v; replicate two_seconds v],
     mkAudioBuffer 44100 two_seconds [replicate two_seconds 0; replicate two_seconds 0]) /\
  peak (replicate two_seconds v) = v /\ 0 < v < 0.9 /\
  peak (replicate two_seconds 0) = 0.
Proof. exact (constant_stereo_pipeline_gen tf two_seconds one_le_two_seconds). Qed.

Lemma vocals_peak_not_09_gen (L : nat) :
  (1 <= L)%nat ->
  peak (getChannelData (fst (extractVocals (Some (fun _ => false))
                                 (constant_stereo L 0.5))) 0) <> 0.9.
Proof.
  intros HL.
  destruct (extract_constant_half (Some (fun _ => false)) L HL) as (_ & Hext & Hv).
  rewrite Hext. cbn [fst limiter_applied negb orb] in *. unfold getChannelData. simpl.
  rewrite peak_replicate by exact HL.
  rewrite Rabs_right by lra. lra.
Qed.

(** [C5] The claimed post-normalisation vocal peak of 0.9 is not reached:
    with the limiter running without error, vocal channel 0 peaks at
    [tanh 0.6 < 0.9]. *)
Lemma constant_stereo_vocals_peak_not_09 :
  peak (getChannelData (fst (extractVocals (Some (fun _ => false))
                                 (constant_stereo two_seconds 0.5))) 0) <> 0.9.
Proof. exact (vocals_peak_not_09_gen two_seconds one_le_two_seconds). Qed.

(** ** The entry guard *)

Lemma step_guard_inv (w w' : World) (e : event) :
  guard_inv w -> step w e = Some w' -> guard_inv w'.
Proof.
  destruct w as [s active]. unfold guard_inv. cbn. intros [Hle Hiff] Hstep.
  destruct e; cbn in Hstep.
  - unfold handleExtractVocals in Hstep.
    destruct (isProcessing s) eqn:Hp.
    + injection Hstep as <-. cbn. rewrite Hp. tauto.
    + destruct (inputFile s) as [f|].
      * destruct (engineLoaded s); cbn in Hstep; injection Hstep as <-; cbn.
        -- assert (active = 0)%nat by (destruct active as [|[|]]; try lia;
             destruct Hiff as [_ H]; specialize (H eq_refl); discriminate).
           subst. split; [lia|tauto].
        -- rewrite Hp. tauto.
      * injection Hstep as <-. cbn. rewrite Hp. tauto.
  - injection Hstep as <-. cbn. tauto.
  - injection Hstep as <-. cbn. unfold initTensorFlow.
    destruct (_ || _); cbn; tauto.
  - destruct active; [discriminate|]. injection Hstep as <-. cbn. tauto.
  - destruct active as [|n]; [discriminate|]. injection Hstep as <-. cbn.
    split; [lia|]. split; [discriminate|lia].
  - destruct active as [|n]; [discriminate|]. injection Hstep as <-. cbn.
    split; [lia|]. split; [discriminate|lia].
Qed.

Lemma run_events_guard_inv (evs : list event) (w w' : World) :
  guard_inv w -> run_events w evs = Some w' -> guard_inv w'.
Proof.
  revert w; induction evs as [|e evs IH]; intros w Hw Hrun; cbn in Hrun.
  - by injection Hrun as <-.
  - destruct (step w e) as [w1|] eqn:Hs; [|discriminate].
    apply (IH w1); [apply (step_guard_inv w w1 e)|]; auto.
Qed.

(** [C8] While [isProcessing] is true, [handleExtractVocals] returns at
    once: the state (every field) is unchanged and no file read, hence no
    decode, is started.  A request is refused, not queued, so in every
    state reached from the initial one by any sequence of events at most
    one run is in flight, and one is exactly when [isProcessing] is true. *)
Theorem handle_rejects_while_processing :
  (forall s, isProcessing s = true -> handleExtractVocals s = (s, false)) /\
  (forall evs w, run_events (initialState, 0%nat) evs = Some w ->
     (w.2 <= 1)%nat /\ (isProcessing w.1 = true <-> w.2 = 1%nat)).
Proof.
  split.
  - intros s Hp. unfold handleExtractVocals. by rewrite Hp.
  - intros evs w Hrun. apply (run_events_guard_inv evs (initialState, 0%nat)); [|done].
    unfold guard_inv. cbn. split; [lia|]. split; discriminate.
Qed.

(** [C9] The three refusals: while processing nothing changes; with no
    input file, or with the engine not loaded, no run starts and every
    field but [error] is unchanged, [error] being set to a message. *)
Theorem entry_guard_refusals (s : ExtractionState) :
  (isProcessing s = true -> handleExtractVocals s = (s, false)) /\
  (isProcessing s = false -> inputFile s = None ->
     handleExtractVocals s = (set_error (Some msg_no_file) s, false)) /\
  (isProcessing s = false -> inputFile s <> None -> engineLoaded s = false ->
     handleExtractVocals s = (set_error (Some msg_not_ready) s, false)).
Proof.
  unfold handleExtractVocals. split; [|split].
  - intros Hp. by rewrite Hp.
  - intros Hp Hf. by rewrite Hp, Hf.
  - intros Hp Hf He. rewrite Hp. destruct (inputFile s); [|done]. by rewrite He.
Qed.

(** [C9] With no input file the call is refused but the state changes:
    [error] goes from none to the message. *)
Lemma no_file_sets_error :
  fst (handleExtractVocals idle_no_file) <> idle_no_file.
Proof. cbn. discriminate. Qed.

(** ** Failures of the soft limiter *)

Lemma enhance_skipped (tf : option (tf_op -> bool)) (L : nat) (b : Bufs) :
  limiter_applied tf = false -> enhance tf L b = b.
Proof.
  destruct tf as [throws|]; [|reflexivity]. unfold limiter_applied. intros H.
  apply enhance_before_copy. by apply negb_false_iff.
Qed.

Lemma separate_constant (tf : option (tf_op -> bool)) (L : nat) (c : R) :
  (1 <= L)%nat ->
  separate tf (constant_stereo L c) =
    let v := if limiter_applied tf then tanh (c * 1.2) else c in
    ([replicate L v; replicate L v], [replicate L 0; replicate L 0]).
Proof.
  intros HL. unfold separate, constant_stereo, numberOfChannels, getChannelData. simpl.
  rewrite stereo_pass_constant, enhance_constant by done.
  by destruct (limiter_applied tf).
Qed.

(** [C7] Two failures that do not give the claimed pass-through: when
    both backends fail to initialise, a click on a selected file starts
    no run and sets an error; and a throw from [dispose()], after the
    copy back, leaves the limited values [tanh(1.2 x)] in the stems. *)
Lemma enhancement_failure_not_pass_through :
  run_events (initialState, 0%nat)
    [SelectFile (Some "song.mp3"%string); InitEngine false false; Click] =
    Some (mkState (Some "song.mp3"%string) false 0 (Some msg_not_ready) None false, 0%nat) /\
  separate (Some dispose_throws) (constant_stereo 1 1) <> separate None (constant_stereo 1 1).
Proof.
  split; [reflexivity|].
  rewrite !separate_constant by lia. cbn.
  intros H. injection H as H1 _. pose proof (tanh_lt_1 (1 * 1.2)). lra.
Qed.

(** [C7] (as amended) Once a run is under way the limiter never stops it.
    When [tf] is null, or a tensor operation up to the read back
    ([tensor2d], [mul], [tanh], [data()]) throws, the throw is caught and
    the stems are exactly those without the limiter.  When both backends
    fail to initialise, [engineLoaded] stays false, and a click made while
    no run is active is refused by the entry guard, which sets an error
    message (no file selected, or engine not ready): no run takes place. *)
Theorem enhancement_failure_handling :
  (forall tf ab, limiter_applied tf = false ->
     separate tf ab = separate None ab /\ extractVocals tf ab = extractVocals None ab) /\
  (forall s, engineLoaded s = false -> isProcessing s = false ->
     engineLoaded (initTensorFlow false false s) = false /\
     snd (handleExtractVocals (initTensorFlow false false s)) = false /\
     (error (fst (handleExtractVocals (initTensorFlow false false s))) = Some msg_no_file \/
      error (fst (handleExtractVocals (initTensorFlow false false s))) = Some msg_not_ready)).
Proof.
  split.
  - intros tf ab H.
    assert (Hs : separate tf ab = separate None ab).
    { unfold separate. destruct (2 <=? numberOfChannels ab)%nat; [|reflexivity].
      by rewrite enhance_skipped. }
    split; [exact Hs|]. unfold extractVocals. by rewrite Hs.
  - intros s He Hp. cbn. split; [exact He|].
    unfold handleExtractVocals, set_error. cbn. rewrite Hp.
    destruct (inputFile s); cbn; [rewrite He; cbn; auto|auto].
Qed.

Lemma enhancement_failure_handling_witness :
  let s := mkState (Some "song.mp3"%string) false 0 None None false in
  snd (handleExtractVocals (initTensorFlow false false s)) = false /\
  (error (fst (handleExtractVocals (initTensorFlow false false s))) = Some msg_no_file \/
   error (fst (handleExtractVocals (initTensorFlow false false s))) = Some msg_not_ready).
Proof.
  intros s. apply (proj2 enhancement_failure_handling s); reflexivity.
Defined.

(** ** The mono branch *)

Lemma mono_pass_short (L : nat) (x : list R) :
  (L <= windowSize)%nat -> mono_pass L x = (f32_new L, f32_new L).
Proof.
  intros HL. unfold mono_pass. cbn [js_for].
  rewrite (proj2 (Z.ltb_ge _ _)); [reflexivity|].
  unfold windowSize in *. lia.
Qed.

Lemma normalize_f32_new (L : nat) : normalize_channel (f32_new L) = f32_new L.
Proof.
  apply normalize_channel_id. rewrite peak_zeros; [lra|].
  apply Forall_replicate. reflexivity.
Qed.

(** [C10] A mono input of at most [windowSize = 1024] samples gets no
    window at all ([start < length - windowSize] fails at once, also for
    exactly 1024 samples): both stems are silent, before and after the
    normalisation, whatever the input. *)
Theorem mono_short_input_silent (tf : option (tf_op -> bool)) (ab : AudioBuffer) :
  numberOfChannels ab = 1%nat -> (ab_length ab <= windowSize)%nat ->
  mono_pass (ab_length ab) (getChannelData ab 0) =
    (f32_new (ab_length ab), f32_new (ab_length ab)) /\
  separate tf ab = ([f32_new (ab_length ab)], [f32_new (ab_length ab)]) /\
  extractVocals tf ab =
    (createBuffer 1 (ab_length ab) (sampleRate ab),
     createBuffer 1 (ab_length ab) (sampleRate ab)).
Proof.
  intros HC HL.
  assert (Hm := mono_pass_short (ab_length ab) (getChannelData ab 0) HL).
  assert (Hs : separate tf ab = ([f32_new (ab_length ab)], [f32_new (ab_length ab)])).
  { unfold separate. rewrite HC. cbn -[mono_pass f32_new]. rewrite Hm. reflexivity. }
  split; [exact Hm|]. split; [exact Hs|].
  unfold extractVocals, createBuffer. rewrite Hs. unfold normalize_stem. cbn -[f32_new].
  rewrite normalize_f32_new. reflexivity.
Qed.

Lemma mono_short_input_silent_witness :
  numberOfChannels mono_1024_half = 1%nat /\ (ab_length mono_1024_half <= windowSize)%nat /\
  extractVocals None mono_1024_half =
    (createBuffer 1 1024 44100, createBuffer 1 1024 44100).
Proof.
  assert (HC : numberOfChannels mono_1024_half = 1%nat) by reflexivity.
  assert (HL : (ab_length mono_1024_half <= windowSize)%nat) by (cbn; unfold windowSize; lia).
  split; [exact HC|]. split; [exact HL|].
  exact (proj2 (proj2 (mono_short_input_silent None mono_1024_half HC HL))).
Defined.

Lemma half_window_weights :
  vocalWeight 512 = 1 /\ accompanimentWeight 512 = 1.
Proof.
  unfold vocalWeight, accompanimentWeight, windowSize.
  rewrite !INR_IZR_INZ. change (Z.of_nat 512) with 512%Z. change (Z.of_nat 1024) with 1024%Z.
  split; apply Rmin_left; lra.
Qed.

(** [C2] A mono input of exactly one window, 1024 samples of 0.5: the
    code writes silence in both stems, while the overlap-add over the full
    windows the claim describes gives 0.5 at sample 512 in both. *)
Theorem mono_full_window_skipped :
  mono_pass 1024 (replicate 1024 0.5) = (f32_new 1024, f32_new 1024) /\
  full_windows 1024 = [0%nat] /\
  overlap_add_spec vocalWeight 1024 (replicate 1024 0.5) 512 = 0.5 /\
  overlap_add_spec accompanimentWeight 1024 (replicate 1024 0.5) 512 = 0.5.
Proof.
  split; [apply mono_pass_short; unfold windowSize; lia|].
  assert (Hw : full_windows 1024 = [0%nat]) by reflexivity.
  split; [exact Hw|].
  unfold overlap_add_spec. rewrite Hw. cbn -[rd vocalWeight accompanimentWeight replicate].
  rewrite rd_replicate by lia. destruct half_window_weights as [-> ->].
  split; lra.
Qed.

(** ** The container encoder *)

Lemma length_set_bytes view off bs : length (set_bytes view off bs) = length view.
Proof.
  revert view off; induction bs as [|b bs IH]; intros view off; simpl; [done|].
  by rewrite IH, length_insert.
Qed.

Lemma take_set_bytes_ge n view off bs :
  (n <= off)%nat -> take n (set_bytes view off bs) = take n view.
Proof.
  revert view off; induction bs as [|b bs IH]; intros view off Hn; simpl; [done|].
  rewrite IH by lia. by apply take_insert_ge.
Qed.

(** The sample loop writes from offset 44 on, inside the buffer. *)
Lemma wav_samples_prefix ab view :
  take 44 (wav_samples ab view) = take 44 view /\
  length (wav_samples ab view) = length view.
Proof.
  unfold wav_samples.
  set (P := fun (_ : nat) (st : list Z * nat) =>
    take 44 st.1 = take 44 view /\ length st.1 = length view /\ (44 <= st.2)%nat).
  assert (Hout : P (0 + ab_length ab)%nat
    (for_loop (ab_length ab) 0
       (fun i '(view, offset) =>
          for_loop (numberOfChannels ab) 0
            (fun channel '(view, offset) =>
               let sample := Rmax (-1) (Rmin 1 (rd (getChannelData ab channel) i)) in
               (setInt16 view offset (sample * 32767), (offset + 2)%nat))
            (view, offset))
       (view, 44%nat))).
  { apply for_loop_ind; [unfold P; simpl; auto|].
    intros i [v off] _ HP.
    apply (for_loop_ind P); [exact HP|].
    intros ch [v' off'] _ (H1 & H2 & H3). unfold P; simpl in *.
    unfold setInt16. rewrite take_set_bytes_ge by lia.
    rewrite length_set_bytes. repeat split; auto; lia. }
  destruct Hout as (H1 & H2 & _). auto.
Qed.

Lemma wav_header_take ab M :
  take 44 (wav_header ab (replicate (44 + M) 0%Z)) = wav_header_spec ab.
Proof. reflexivity. Qed.

Lemma length_writeString view off s :
  length (writeString view off s) = length view.
Proof.
  unfold writeString.
  apply (for_loop_ind (fun _ v => length v = length view)); [done|].
  intros i v _ Hv. by rewrite <- Hv; unfold setUint8; rewrite length_set_bytes.
Qed.

Lemma length_wav_bytes ab :
  length (wav_bytes ab) = (44 + ab_length ab * numberOfChannels ab * 2)%nat.
Proof.
  unfold wav_bytes. rewrite (proj2 (wav_samples_prefix _ _)).
  unfold wav_header, setUint32, setUint16.
  rewrite !length_set_bytes, !length_writeString, !length_set_bytes,
    !length_writeString, !length_set_bytes, length_writeString, length_replicate.
  reflexivity.
Qed.

Lemma le_value_u32 v : (0 <= v < 2 ^ 32)%Z -> le_value (u32_bytes v) = v.
Proof.
  intros H. unfold le_value, u32_bytes; cbn [fold_right].
  rewrite (Z.mod_small v) by lia. Z.div_mod_to_equations. lia.
Qed.

Lemma le_value_u16 v : (0 <= v < 2 ^ 16)%Z -> le_value (u16_bytes v) = v.
Proof.
  intros H. unfold le_value, u16_bytes; cbn [fold_right].
  rewrite (Z.mod_small v) by lia. Z.div_mod_to_equations. lia.
Qed.

Lemma b64_char_table :
  forallb (fun k => (b64_index (b64_char k) =? k)%Z && negb (Ascii.eqb (b64_char k) "="))
    (map Z.of_nat (seq 0 64)) = true.
Proof. vm_compute. reflexivity. Qed.

Lemma b64_char_ok k :
  (0 <= k < 64)%Z -> b64_index (b64_char k) = k /\ Ascii.eqb (b64_char k) "=" = false.
Proof.
  intros Hk. pose proof b64_char_table as Ht.
  rewrite forallb_forall in Ht.
  assert (Hin : In k (map Z.of_nat (seq 0 64))).
  { apply in_map_iff. exists (Z.to_nat k). split; [lia|].
    apply in_seq. lia. }
  apply Ht, andb_prop in Hin as [H1 H2].
  split; [by apply Z.eqb_eq|]. by apply negb_true_iff.
Qed.

Ltac b64_rewrite :=
  repeat match goal with
  | |- context [b64_index (b64_char ?k)] =>
      let H := fresh in
      assert (H : (0 <= k < 64)%Z) by (Z.div_mod_to_equations; lia);
      rewrite (proj1 (b64_char_ok k H)); clear H
  | |- context [Ascii.eqb (b64_char ?k) "="%char] =>
      let H := fresh in
      assert (H : (0 <= k < 64)%Z) by (Z.div_mod_to_equations; lia);
      rewrite (proj2 (b64_char_ok k H)); clear H
  end.

Lemma atob_btoa bs : Forall byte_range bs -> atob (btoa bs) = bs.
Proof.
  unfold atob, btoa. rewrite list_ascii_of_string_of_list_ascii.
  remember (length bs) as n eqn:Hn. revert bs Hn.
  induction n as [n IH] using lt_wf_ind; intros bs Hn Hb.
  destruct bs as [|b0 [|b1 [|b2 rest]]]; [reflexivity| | |].
  - apply Forall_cons in Hb as [H0 _]. unfold byte_range in *.
    cbn [base64_chars atob_chars]. b64_rewrite. rewrite Ascii.eqb_refl.
    f_equal. Z.div_mod_to_equations; lia.
  - apply Forall_cons in Hb as [H0 Hb]. apply Forall_cons in Hb as [H1 _].
    unfold byte_range in *.
    cbn [base64_chars atob_chars]. b64_rewrite. rewrite Ascii.eqb_refl.
    f_equal; [|f_equal]; Z.div_mod_to_equations; lia.
  - apply Forall_cons in Hb as [H0 Hb]. apply Forall_cons in Hb as [H1 Hb].
    apply Forall_cons in Hb as [H2 Hb]. unfold byte_range in H0, H1, H2.
    cbn [base64_chars atob_chars]. b64_rewrite.
    rewrite (IH (length rest)) by (simpl in Hn; lia || done).
    f_equal; [|f_equal; [|f_equal]]; Z.div_mod_to_equations; lia.
Qed.

(** Every byte the encoder writes is in [0, 256). *)
Lemma Forall_set_bytes view off bs :
  Forall byte_range view -> Forall byte_range bs ->
  Forall byte_range (set_bytes view off bs).
Proof.
  revert view off; induction bs as [|b bs IH]; intros view off Hv Hb; simpl; [done|].
  apply Forall_cons in Hb as [Hb0 Hb]. apply IH; [|done].
  by apply Forall_insert.
Qed.

Lemma byte_range_mod v : byte_range (v mod 256)%Z.
Proof. unfold byte_range. apply Z.mod_pos_bound. lia. Qed.

Lemma Forall_u16_bytes v : Forall byte_range (u16_bytes v).
Proof. unfold u16_bytes. repeat apply List.Forall_cons; try apply byte_range_mod; constructor. Qed.

Lemma Forall_u32_bytes v : Forall byte_range (u32_bytes v).
Proof. unfold u32_bytes. repeat apply List.Forall_cons; try apply byte_range_mod; constructor. Qed.

Lemma Forall_writeString view off s :
  Forall byte_range view -> Forall byte_range (writeString view off s).
Proof.
  intros Hv. unfold writeString.
  apply (for_loop_ind (fun _ v => Forall byte_range v)); [done|].
  intros i v _ H. unfold setUint8. apply Forall_set_bytes; [done|].
  apply List.Forall_cons; [apply byte_range_mod | constructor].
Qed.

Lemma Forall_wav_bytes ab : Forall byte_range (wav_bytes ab).
Proof.
  unfold wav_bytes, wav_samples.
  set (P := fun (_ : nat) (st : list Z * nat) => Forall byte_range st.1).
  match goal with |- Forall _ (fst (for_loop ?n ?lo ?body ?s)) =>
    change (P (lo + n)%nat (for_loop n lo body s)) end.
  apply for_loop_ind.
  - unfold P; cbn [fst]; unfold wav_header, setUint32, setUint16.
    repeat (apply Forall_writeString || apply Forall_set_bytes);
      try apply Forall_u32_bytes; try apply Forall_u16_bytes.
    apply Forall_replicate. unfold byte_range. lia.
  - intros i [v off] _ HP.
    apply (for_loop_ind P); [exact HP|].
    intros ch [v' off'] _ H. unfold P in *; simpl in *.
    apply Forall_set_bytes; [done|apply Forall_u16_bytes].
Qed.

(** The header of the encoder's output is read back by [parse_wav]. *)
Lemma parse_wav_bytes ab :
  (1 <= numberOfChannels ab)%nat ->
  (Z.of_nat (numberOfChannels ab) * 2 < 2 ^ 16)%Z ->
  (0 <= sampleRate ab)%Z ->
  (sampleRate ab * Z.of_nat (numberOfChannels ab) * 2 < 2 ^ 32)%Z ->
  (Z.of_nat (44 + ab_length ab * numberOfChannels ab * 2) < 2 ^ 32)%Z ->
  parse_wav (wav_bytes ab) =
    Some (Z.of_nat (numberOfChannels ab), sampleRate ab,
          Z.of_nat (ab_length ab * numberOfChannels ab * 2)).
Proof.
  intros Hc Hc2 Hr Hbr Hn.
  assert (Ht : take 44 (wav_bytes ab) = wav_header_spec ab).
  { unfold wav_bytes. rewrite (proj1 (wav_samples_prefix _ _)).
    apply wav_header_take. }
  unfold parse_wav. rewrite Ht, length_wav_bytes.
  set (C := numberOfChannels ab) in *.
  set (M := (ab_length ab * C * 2)%nat) in *.
  set (rate := sampleRate ab) in *.
  assert (Hrate : (rate < 2 ^ 32)%Z) by nia.
  replace (field (wav_header_spec ab) 0 4) with (tag "RIFF") by reflexivity.
  replace (field (wav_header_spec ab) 4 4) with (u32_bytes (36 + Z.of_nat M)) by reflexivity.
  replace (field (wav_header_spec ab) 8 4) with (tag "WAVE") by reflexivity.
  replace (field (wav_header_spec ab) 12 4) with (tag "fmt ") by reflexivity.
  replace (field (wav_header_spec ab) 16 4) with (u32_bytes 16) by reflexivity.
  replace (field (wav_header_spec ab) 20 2) with (u16_bytes 1) by reflexivity.
  replace (field (wav_header_spec ab) 22 2) with (u16_bytes (Z.of_nat C)) by reflexivity.
  replace (field (wav_header_spec ab) 24 4) with (u32_bytes rate) by reflexivity.
  replace (field (wav_header_spec ab) 28 4)
    with (u32_bytes (rate * Z.of_nat C * 2)) by reflexivity.
  replace (field (wav_header_spec ab) 32 2) with (u16_bytes (Z.of_nat C * 2)) by reflexivity.
  replace (field (wav_header_spec ab) 34 2) with (u16_bytes 16) by reflexivity.
  replace (field (wav_header_spec ab) 36 4) with (tag "data") by reflexivity.
  replace (field (wav_header_spec ab) 40 4) with (u32_bytes (Z.of_nat M)) by reflexivity.
  rewrite !le_value_u32, !le_value_u16 by lia.
  rewrite !bool_decide_eq_true_2 by reflexivity.
  replace (44 <=? Z.of_nat (44 + M))%Z with true by (symmetry; apply Z.leb_le; lia).
  replace (36 + Z.of_nat M =? Z.of_nat (44 + M) - 8)%Z with true
    by (symmetry; apply Z.eqb_eq; lia).
  replace (1 <=? Z.of_nat C)%Z with true by (symmetry; apply Z.leb_le; lia).
  replace (Z.of_nat M =? Z.of_nat (44 + M) - 44)%Z with true
    by (symmetry; apply Z.eqb_eq; lia).
  rewrite !Z.eqb_refl. cbn [andb]. do 2 f_equal. lia.
Qed.

(** C6: a request for format [mp3] returns the same base64 text as a request
    for [wav], namely [btoa] of the WAV bytes; the encoder is total, so the
    request always succeeds.  Decoding the returned text gives back the
    WAV bytes, and, for an AudioBuffer with at least one channel whose
    header fields fit their 16- and 32-bit slots (byte rate, block align and
    file size below [2^32], resp. [2^16]), those bytes are read by
    [parse_wav] as a PCM WAV file with the buffer's channel count, sample
    rate and [length * numberOfChannels * 2] bytes of sample data. *)
Theorem mp3_request_returns_wav (ab : AudioBuffer) :
  audioBufferToBase64 ab FormatMp3 = audioBufferToBase64 ab FormatWav /\
  audioBufferToBase64 ab FormatMp3 = btoa (wav_bytes ab) /\
  atob (audioBufferToBase64 ab FormatMp3) = wav_bytes ab /\
  ((1 <= numberOfChannels ab)%nat ->
   (Z.of_nat (numberOfChannels ab) * 2 < 2 ^ 16)%Z ->
   (0 <= sampleRate ab)%Z ->
   (sampleRate ab * Z.of_nat (numberOfChannels ab) * 2 < 2 ^ 32)%Z ->
   (Z.of_nat (44 + ab_length ab * numberOfChannels ab * 2) < 2 ^ 32)%Z ->
   parse_wav (atob (audioBufferToBase64 ab FormatMp3)) =
     Some (Z.of_nat (numberOfChannels ab), sampleRate ab,
           Z.of_nat (ab_length ab * numberOfChannels ab * 2))).
Proof.
  assert (Hdec : atob (audioBufferToBase64 ab FormatMp3) = wav_bytes ab).
  { cbn [audioBufferToBase64]. unfold audioBufferToMp3Base64, audioBufferToWavBase64.
    apply atob_btoa, Forall_wav_bytes. }
  split; [reflexivity|]. split; [reflexivity|]. split; [exact Hdec|].
  intros Hc Hc2 Hr Hbr Hn. rewrite Hdec. by apply parse_wav_bytes.
Qed.

Lemma mp3_request_returns_wav_witness :
  parse_wav (atob (audioBufferToBase64 wav_example FormatMp3)) =
    Some (Z.of_nat (numberOfChannels wav_example), sampleRate wav_example,
          Z.of_nat (ab_length wav_example * numberOfChannels wav_example * 2)).
Proof.
  apply (proj2 (proj2 (proj2 (mp3_request_returns_wav wav_example))));
    unfold numberOfChannels, wav_example; simpl; lia.
Defined.

(** ** Layout of the samples in the WAV bytes *)

Lemma lookup_set_bytes_out view off bs j :
  (j < off \/ off + length bs <= j)%nat -> set_bytes view off bs !! j = view !! j.
Proof.
  revert view off; induction bs as [|b bs IH]; intros view off Hj; simpl; [done|].
  simpl in Hj. rewrite IH by lia. apply list_lookup_insert_ne. lia.
Qed.

Lemma lookup_set_bytes_in view off bs k :
  (k < length bs)%nat -> (off + k < length view)%nat ->
  set_bytes view off bs !! (off + k)%nat = bs !! k.
Proof.
  revert view off k; induction bs as [|b bs IH]; intros view off k Hk Hv;
    simpl in *; [lia|].
  destruct k as [|k].
  - rewrite lookup_set_bytes_out by lia. rewrite Nat.add_0_r.
    apply list_lookup_insert_eq. lia.
  - replace (off + Datatypes.S k)%nat with (Datatypes.S off + k)%nat by lia.
    apply IH; [lia|]. rewrite length_insert. lia.
Qed.

Lemma int16_at_pair v p n :
  (-32768 <= n < 32768)%Z -> pair_at v p n -> int16_at v p = n.
Proof.
  intros Hn [H0 H1]. unfold int16_at, byte_at. rewrite H0, H1.
  cbn [default nth u16_bytes Datatypes.id].
  destruct (Z.leb_spec 32768 ((n mod 2 ^ 16) mod 256 + 256 * ((n mod 2 ^ 16) / 256 mod 256)));
    Z.div_mod_to_equations; lia.
Qed.

Lemma set_bytes_pair v off n :
  (Datatypes.S off < length v)%nat -> pair_at (set_bytes v off (u16_bytes n)) off n.
Proof.
  intros Hl. split.
  - rewrite <- (Nat.add_0_r off) at 1. rewrite lookup_set_bytes_in; [done| |]; simpl; lia.
  - replace (Datatypes.S off) with (off + 1)%nat by lia.
    rewrite lookup_set_bytes_in; [done| |]; simpl; lia.
Qed.

Lemma set_bytes_pair_other v off bs p n :
  (Datatypes.S p < off \/ off + length bs <= p)%nat -> pair_at v p n ->
  pair_at (set_bytes v off bs) p n.
Proof.
  intros Hp [H0 H1]. split; rewrite lookup_set_bytes_out by lia; done.
Qed.

Lemma wav_samples_layout ab v0 i ch :
  length v0 = (44 + ab_length ab * numberOfChannels ab * 2)%nat ->
  (i < ab_length ab)%nat -> (ch < numberOfChannels ab)%nat ->
  pair_at (wav_samples ab v0) (44 + 2 * (i * numberOfChannels ab + ch)) (sample_val ab i ch).
Proof.
  intros Hlen Hi Hch. unfold wav_samples.
  set (L := ab_length ab) in *. set (C := numberOfChannels ab) in *.
  set (N := (44 + L * C * 2)%nat) in *.
  set (P := fun (i0 : nat) (st : list Z * nat) =>
    length st.1 = N /\ st.2 = (44 + 2 * (i0 * C))%nat /\
    forall i' ch', (i' < i0)%nat -> (ch' < C)%nat ->
      pair_at st.1 (44 + 2 * (i' * C + ch')) (sample_val ab i' ch')).
  cut (P (0 + L)%nat
    (for_loop L 0
       (fun i '(view, offset) =>
          for_loop C 0
            (fun channel '(view, offset) =>
               let sample := Rmax (-1) (Rmin 1 (rd (getChannelData ab channel) i)) in
               (setInt16 view offset (sample * 32767), (offset + 2)%nat))
            (view, offset))
       (v0, 44%nat))).
  { intros (_ & _ & H). apply H; lia. }
  apply for_loop_ind.
  - unfold P; cbn [fst snd]. split; [done|split; [lia|]]. intros; lia.
  - intros i0 [v off] Hi0 (Hl & Ho & Hprev). cbn [fst snd] in Hl, Ho, Hprev.
    set (Q := fun (c0 : nat) (st : list Z * nat) =>
      length st.1 = N /\ st.2 = (44 + 2 * (i0 * C + c0))%nat /\
      forall i' ch', (ch' < C)%nat -> (i' < i0 \/ (i' = i0 /\ ch' < c0))%nat ->
        pair_at st.1 (44 + 2 * (i' * C + ch')) (sample_val ab i' ch')).
    assert (HQ : Q (0 + C)%nat
      (for_loop C 0
         (fun channel '(view, offset) =>
            let sample := Rmax (-1) (Rmin 1 (rd (getChannelData ab channel) i0)) in
            (setInt16 view offset (sample * 32767), (offset + 2)%nat))
         (v, off))).
    { apply for_loop_ind.
      - unfold Q; cbn [fst snd]. split; [done|split; [lia|]].
        intros i' ch' Hc' [H|H]; [by apply Hprev|lia].
      - intros c0 [v' off'] Hc0 (Hl' & Ho' & Hp'). cbn [fst snd] in Hl', Ho', Hp'.
        unfold Q; cbn [fst snd]. unfold setInt16. rewrite length_set_bytes.
        split; [done|split; [lia|]].
        intros i' ch' Hc' Hord.
        destruct (decide (i' = i0 /\ ch' = c0)) as [[-> ->]|Hne].
        + subst off'. apply set_bytes_pair. rewrite Hl'. unfold N. nia.
        + apply set_bytes_pair_other; [|apply Hp'; [done|]].
          * cbn [length]. left. subst off'. destruct Hord as [Hord|[-> Hord]]; [|lia]. nia.
          * destruct Hord as [Hord|[-> Hord]]; [by left|]. right. lia. }
    destruct HQ as (Hl' & Ho' & Hp'). cbv zeta in Hl', Ho', Hp'.
    unfold P. cbv zeta. split; [done|split; [nia|]].
    intros i' ch' Hi' Hc'. apply Hp'; [done|].
    destruct (decide (i' = i0)) as [->|]; [right; lia|left; lia].
Qed.

Lemma length_wav_header ab v : length (wav_header ab v) = length v.
Proof.
  unfold wav_header, setUint32, setUint16.
  rewrite !length_set_bytes, !length_writeString, !length_set_bytes,
    !length_writeString, !length_set_bytes, length_writeString.
  reflexivity.
Qed.

Lemma clamp_bounds x : -1 <= Rmax (-1) (Rmin 1 x) <= 1.
Proof. unfold Rmax, Rmin. repeat destruct Rle_dec; lra. Qed.

Lemma Int_part_range y :
  0 <= y <= 32767 -> (0 <= Int_part y <= 32767)%Z.
Proof.
  intros Hy. destruct (base_Int_part y) as [H1 H2]. split.
  - assert (IZR (-1) < IZR (Int_part y)) by lra.
    apply lt_IZR in H. lia.
  - apply le_IZR. lra.
Qed.

Lemma js_trunc_range y :
  -32767 <= y <= 32767 -> (-32767 <= js_trunc y <= 32767)%Z.
Proof.
  intros Hy. unfold js_trunc. destruct (Rle_dec 0 y).
  - pose proof (Int_part_range y ltac:(lra)). lia.
  - apply Rnot_le_lt in n. pose proof (Int_part_range (- y) ltac:(lra)). lia.
Qed.

Lemma Int_part_IZR z : Int_part (IZR z) = z.
Proof.
  unfold Int_part. rewrite <- (tech_up (IZR z) (z + 1)); [lia| |];
    rewrite plus_IZR; lra.
Qed.

Lemma js_trunc_IZR z : js_trunc (IZR z) = z.
Proof.
  unfold js_trunc. destruct (Rle_dec 0 (IZR z)).
  - apply Int_part_IZR.
  - rewrite <- opp_IZR, Int_part_IZR. lia.
Qed.

Lemma sample_val_range ab i ch : (-32767 <= sample_val ab i ch <= 32767)%Z.
Proof.
  unfold sample_val. apply js_trunc_range.
  pose proof (clamp_bounds (rd (getChannelData ab ch) i)). lra.
Qed.

Lemma wav_sample_eq ab i ch :
  (i < ab_length ab)%nat -> (ch < numberOfChannels ab)%nat ->
  wav_sample (wav_bytes ab) (numberOfChannels ab) i ch = sample_val ab i ch.
Proof.
  intros Hi Hch. unfold wav_sample. apply int16_at_pair.
  - pose proof (sample_val_range ab i ch). lia.
  - unfold wav_bytes. apply wav_samples_layout; [|done|done].
    by rewrite length_wav_header, length_replicate.
Qed.

(** The WAV encoder interleaves the channels frame by frame: sample [i] of
    channel [ch] is the little-endian 16-bit word at byte
    [44 + 2 * (i * numberOfChannels + ch)] of a file of
    [44 + length * numberOfChannels * 2] bytes, and read back with
    [getInt16] it is [Math.max(-1, Math.min(1, x)) * 0x7fff] truncated
    towards zero, a value in [-32767, 32767]. *)
Theorem wav_sample_layout (ab : AudioBuffer) (i ch : nat) :
  (i < ab_length ab)%nat -> (ch < numberOfChannels ab)%nat ->
  length (wav_bytes ab) = (44 + ab_length ab * numberOfChannels ab * 2)%nat /\
  wav_sample (wav_bytes ab) (numberOfChannels ab) i ch =
    js_trunc (Rmax (-1) (Rmin 1 (rd (getChannelData ab ch) i)) * 32767) /\
  (-32767 <= wav_sample (wav_bytes ab) (numberOfChannels ab) i ch <= 32767)%Z.
Proof.
  intros Hi Hch. rewrite wav_sample_eq by done.
  split; [apply length_wav_bytes|]. split; [reflexivity|apply sample_val_range].
Qed.

Lemma wav_sample_layout_witness :
  wav_sample (wav_bytes wav_example) 2 1 0 =
    js_trunc (Rmax (-1) (Rmin 1 (rd (getChannelData wav_example 0) 1)) * 32767).
Proof.
  apply (wav_sample_layout wav_example 1 0); unfold numberOfChannels, wav_example; simpl; lia.
Defined.

(** Samples outside [-1, 1] are clipped: one at or above 1 is stored as
    32767, one at or below -1 as -32767. *)
Theorem wav_sample_clipping (ab : AudioBuffer) (i ch : nat) :
  (i < ab_length ab)%nat -> (ch < numberOfChannels ab)%nat ->
  (1 <= rd (getChannelData ab ch) i ->
   wav_sample (wav_bytes ab) (numberOfChannels ab) i ch = 32767%Z) /\
  (rd (getChannelData ab ch) i <= -1 ->
   wav_sample (wav_bytes ab) (numberOfChannels ab) i ch = (-32767)%Z).
Proof.
  intros Hi Hch. rewrite wav_sample_eq by done. unfold sample_val.
  split; intros Hx.
  - replace (Rmax (-1) (Rmin 1 (rd (getChannelData ab ch) i)) * 32767) with (IZR 32767).
    + apply js_trunc_IZR.
    + unfold Rmax, Rmin. repeat destruct Rle_dec; lra.
  - replace (Rmax (-1) (Rmin 1 (rd (getChannelData ab ch) i)) * 32767) with (IZR (-32767)).
    + apply js_trunc_IZR.
    + unfold Rmax, Rmin. repeat destruct Rle_dec; lra.
Qed.

Lemma wav_sample_clipping_witness :
  wav_sample (wav_bytes wav_example) 2 1 1 = 32767%Z.
Proof.
  apply (proj1 (wav_sample_clipping wav_example 1 1 ltac:(simpl; lia)
    ltac:(unfold numberOfChannels, wav_example; simpl; lia))).
  unfold rd, getChannelData, wav_example. simpl. lra.
Defined.

(** ** The stems reach the encoder without clipping *)

Lemma normalized_sample_bound (chs : list (list R)) (ch i : nat) :
  -0.9 <= rd (default [] (normalize_stem chs !! ch)) i <= 0.9.
Proof.
  unfold normalize_stem. rewrite list_lookup_fmap.
  destruct (chs !! ch) as [c|]; cbn [fmap option_fmap option_map default Datatypes.id].
  - unfold rd. destruct (normalize_channel c !! i) as [x|] eqn:Hx; cbn [default]; [|lra].
    assert (Hin : In x (normalize_channel c)) by (by eapply list_elem_of_In, list_elem_of_lookup_2).
    pose proof (peak_ge _ _ Hin). pose proof (normalize_channel_peak_le c).
    unfold Datatypes.id. revert H H0. unfold Rabs. destruct Rcase_abs; intros; lra.
  - unfold rd. rewrite lookup_nil. cbn. lra.
Qed.

Lemma extractVocals_stems tf ab :
  exists vch ach, extractVocals tf ab =
    (mkAudioBuffer (sampleRate ab) (ab_length ab) (normalize_stem vch),
     mkAudioBuffer (sampleRate ab) (ab_length ab) (normalize_stem ach)).
Proof.
  unfold extractVocals. destruct (separate tf ab) as [vch ach]. eauto.
Qed.

Lemma js_trunc_bound_29490 y : -29491 < y < 29491 -> (-29490 <= js_trunc y <= 29490)%Z.
Proof.
  intros Hy. unfold js_trunc. destruct (Rle_dec 0 y) as [H|H].
  - destruct (base_Int_part y) as [H1 H2].
    assert (Hu : IZR (Int_part y) < IZR 29491) by lra. apply lt_IZR in Hu.
    assert (Hl : IZR (-1) < IZR (Int_part y)) by lra. apply lt_IZR in Hl. lia.
  - apply Rnot_le_lt in H. destruct (base_Int_part (- y)) as [H1 H2].
    assert (Hu : IZR (Int_part (- y)) < IZR 29491) by lra. apply lt_IZR in Hu.
    assert (Hl : IZR (-1) < IZR (Int_part (- y))) by lra. apply lt_IZR in Hl. lia.
Qed.

(** Both stems of [extractVocals] have every sample within [-0.9, 0.9], so
    the encoder's clamp [Math.max(-1, Math.min(1, x))] leaves every sample
    unchanged: each stored value is [x * 0x7fff] truncated, a value in
    [-29490, 29490]. *)
Theorem extracted_stems_never_clipped (tf : option (tf_op -> bool)) (ab : AudioBuffer)
  (stem : AudioBuffer) (i ch : nat) :
  In stem [fst (extractVocals tf ab); snd (extractVocals tf ab)] ->
  (i < ab_length stem)%nat -> (ch < numberOfChannels stem)%nat ->
  -0.9 <= rd (getChannelData stem ch) i <= 0.9 /\
  Rmax (-1) (Rmin 1 (rd (getChannelData stem ch) i)) = rd (getChannelData stem ch) i /\
  wav_sample (wav_bytes stem) (numberOfChannels stem) i ch =
    js_trunc (rd (getChannelData stem ch) i * 32767) /\
  (-29490 <= wav_sample (wav_bytes stem) (numberOfChannels stem) i ch <= 29490)%Z.
Proof.
  intros Hin Hi Hch.
  assert (Hb : -0.9 <= rd (getChannelData stem ch) i <= 0.9).
  { destruct (extractVocals_stems tf ab) as (vch & ach & E). rewrite E in Hin.
    simpl in Hin. destruct Hin as [<-|[<-|[]]]; apply normalized_sample_bound. }
  assert (Hc : Rmax (-1) (Rmin 1 (rd (getChannelData stem ch) i)) = rd (getChannelData stem ch) i)
    by (unfold Rmax, Rmin; repeat destruct Rle_dec; lra).
  split; [exact Hb|]. split; [exact Hc|].
  rewrite wav_sample_eq by done. unfold sample_val. rewrite Hc.
  split; [reflexivity|]. apply js_trunc_bound_29490. lra.
Qed.

Lemma extracted_stems_never_clipped_witness :
  let st := fst (extractVocals None stereo_example) in
  -0.9 <= rd (getChannelData st 1) 0 <= 0.9 /\
  wav_sample (wav_bytes st) (numberOfChannels st) 0 1 =
    js_trunc (rd (getChannelData st 1) 0 * 32767).
Proof.
  intros st.
  assert (Hin : In st [fst (extractVocals None stereo_example);
                       snd (extractVocals None stereo_example)]) by (left; reflexivity).
  assert (Hi : (0 < ab_length st)%nat)
    by (unfold st, extractVocals, separate, numberOfChannels, stereo_example; simpl; lia).
  assert (Hch : (1 < numberOfChannels st)%nat)
    by (unfold st, extractVocals, separate, numberOfChannels, stereo_example; simpl; lia).
  destruct (extracted_stems_never_clipped None stereo_example st 0 1 Hin Hi Hch)
    as (H1 & _ & H3 & _).
  split; [exact H1|exact H3].
Defined.

(** ** Symmetry of the stereo stems *)

Lemma rd_map_opp (x : list R) (j : nat) : rd (map Ropp x) j = - rd x j.
Proof.
  unfold rd. rewrite lookup_map_R. destruct (x !! j); cbn; unfold Datatypes.id; lra.
Qed.

Lemma ema_at_opp (x : list R) (i : nat) : ema_at (map Ropp x) i = - ema_at x i.
Proof.
  induction i as [|i IH]; cbn [ema_at]; rewrite ?rd_map_opp; [lra|].
  rewrite IH. lra.
Qed.

Lemma ema_spec_opp (x : list R) : ema_spec (map Ropp x) = map Ropp (ema_spec x).
Proof.
  unfold ema_spec. rewrite length_map, map_map. apply List.map_ext.
  intros i. apply ema_at_opp.
Qed.

Lemma side_spec_opp (l r : list R) : side_spec r l r = map Ropp (side_spec l l r).
Proof.
  unfold side_spec, center_spec. revert r.
  induction l as [|x l IH]; intros [|y r]; cbn; try done.
  f_equal; [lra|]. apply IH.
Qed.

Lemma tanh_opp (x : R) : tanh (- x) = - tanh x.
Proof.
  unfold tanh, sinh, cosh. rewrite Ropp_involutive.
  assert (0 < exp x) by apply exp_pos. assert (0 < exp (- x)) by apply exp_pos.
  field. lra.
Qed.

Lemma stereo_pass_sym (L : nat) (l r : list R) :
  length l = L -> length r = L ->
  exists v a, stereo_pass L l r = (v, v, a, map Ropp a) /\
              length v = L /\ length a = L.
Proof.
  intros Hl Hr. destruct L as [|L'].
  - exists [], []. split; [reflexivity|done].
  - exists (ema_spec (center_spec l r)), (ema_spec (side_spec l l r)).
    unfold stereo_pass. rewrite (first_pass_spec (Datatypes.S L')) by done.
    rewrite second_pass_spec; try lia.
    + rewrite side_spec_opp, ema_spec_opp, !length_ema_spec.
      split; [reflexivity|]. split; [by apply length_center_spec|by apply length_side_spec].
    + by apply length_center_spec.
    + by apply length_side_spec.
    + by apply length_side_spec.
Qed.

Lemma enhance_sym (tf : option (tf_op -> bool)) (L : nat) (v a : list R) :
  length v = L -> length a = L ->
  exists v' a', enhance tf L (v, v, a, map Ropp a) = (v', v', a', map Ropp a') /\
                length v' = L /\ length a' = L.
Proof.
  intros Hv Ha. destruct tf as [throws|]; [|by exists v, a].
  destruct (throws OpTensor2d || throws OpMul || throws OpTanh || throws OpData) eqn:E.
  - exists v, a. by rewrite enhance_before_copy.
  - rewrite enhance_after_copy by done.
    exists (map tanh (map (fun x => x * 1.2) v)), (map tanh (map (fun x => x * 1.1) a)).
    unfold enhanced_data, tensor2d. cbn [concat fst snd]. rewrite !app_nil_r.
    rewrite copy_back_spec; cbn [fst snd];
      rewrite ?length_map, ?length_app, ?length_map; try lia.
    rewrite !map_app.
    rewrite take_app_length' by (rewrite !length_map; lia).
    rewrite drop_app_length' by (rewrite !length_map; lia).
    rewrite take_app_length' by (rewrite !length_map; lia).
    rewrite drop_app_length' by (rewrite !length_map; lia).
    split; [|lia].
    f_equal. rewrite !map_map. apply List.map_ext. intros x.
    rewrite <- tanh_opp. f_equal. lra.
Qed.

Lemma normalize_channel_opp (c : list R) :
  normalize_channel (map Ropp c) = map Ropp (normalize_channel c).
Proof.
  assert (Hp : peak (map Ropp c) = peak c).
  { rewrite !peak_fold. generalize 0. induction c as [|x c IH]; intros m; [done|].
    cbn [map fold_left]. rewrite IH. unfold peak_step. by rewrite Rabs_Ropp. }
  unfold normalize_channel. rewrite Hp.
  destruct (Rlt_dec 0 (peak c)); [|done].
  rewrite !map_map. apply List.map_ext. intros x. lra.
Qed.

Lemma separate_stereo_shape (tf : option (tf_op -> bool)) (ab : AudioBuffer) :
  well_formed ab -> (2 <= numberOfChannels ab)%nat ->
  exists v a, separate tf ab =
    (<[1%nat := v]> (<[0%nat := v]> (replicate (numberOfChannels ab) (f32_new (ab_length ab)))),
     <[1%nat := map Ropp a]> (<[0%nat := a]>
        (replicate (numberOfChannels ab) (f32_new (ab_length ab))))).
Proof.
  intros Hwf HC. unfold separate.
  replace (2 <=? numberOfChannels ab)%nat with true by (symmetry; apply Nat.leb_le; lia).
  destruct (stereo_pass_sym (ab_length ab) (getChannelData ab 0) (getChannelData ab 1))
    as (v & a & E & Hv & Ha); [apply length_getChannelData; auto; lia..|].
  rewrite E.
  destruct (enhance_sym tf (ab_length ab) v a Hv Ha) as (v' & a' & E' & _ & _).
  rewrite E'. by exists v', a'.
Qed.

Lemma getChannelData_normalize_stem (rate : Z) (L : nat) (chs : list (list R)) (ch : nat) :
  getChannelData (mkAudioBuffer rate L (normalize_stem chs)) ch =
    default [] (normalize_channel <$> (chs !! ch)).
Proof. unfold getChannelData, normalize_stem. cbn [ab_data]. by rewrite list_lookup_fmap. Qed.

(** For a stereo (or wider) input, whatever happens in the soft limiter:
    the two vocal channels are equal, and every channel past the second is
    silent in both stems. *)
Theorem stereo_stems_structure (tf : option (tf_op -> bool)) (ab : AudioBuffer) :
  well_formed ab -> (2 <= numberOfChannels ab)%nat ->
  getChannelData (fst (extractVocals tf ab)) 1 = getChannelData (fst (extractVocals tf ab)) 0 /\
  (forall ch, (2 <= ch < numberOfChannels ab)%nat ->
     getChannelData (fst (extractVocals tf ab)) ch = f32_new (ab_length ab) /\
     getChannelData (snd (extractVocals tf ab)) ch = f32_new (ab_length ab)).
Proof.
  intros Hwf HC.
  destruct (separate_stereo_shape tf ab Hwf HC) as (v & a & E).
  unfold extractVocals. rewrite E. cbn [fst snd].
  rewrite !getChannelData_normalize_stem.
  set (Z0 := replicate (numberOfChannels ab) (f32_new (ab_length ab))).
  assert (HZ : length Z0 = numberOfChannels ab) by apply length_replicate.
  assert (Hl0 : forall (x : list R), length (<[0%nat := x]> Z0) = numberOfChannels ab)
    by (intros; rewrite length_insert; done).
  split.
  - rewrite list_lookup_insert_eq by (rewrite Hl0; lia).
    rewrite list_lookup_insert_ne by lia.
    rewrite list_lookup_insert_eq by lia. reflexivity.
  - intros ch Hch.
    rewrite !getChannelData_normalize_stem, !list_lookup_insert_ne by lia.
    unfold Z0. rewrite lookup_replicate_2 by lia. cbn.
    by rewrite normalize_f32_new.
Qed.

Lemma stereo_stems_structure_witness :
  getChannelData (fst (extractVocals None stereo_example)) 1 =
    getChannelData (fst (extractVocals None stereo_example)) 0.
Proof.
  apply (stereo_stems_structure None stereo_example).
  - unfold well_formed, stereo_example. repeat constructor.
  - unfold numberOfChannels, stereo_example. simpl. lia.
Defined.

(** ** Shape of the stems *)

Lemma js_for_inv {St} (P : St -> Prop) (fuel lo step : nat) (cond : nat -> bool)
  (body : nat -> St -> St) (s : St) :
  P s -> (forall i s, P s -> P (body i s)) -> P (js_for fuel lo step cond body s).
Proof.
  revert lo s; induction fuel as [|f IH]; intros lo s H0 Hb; simpl; [done|].
  destruct (cond lo); [apply IH; auto|done].
Qed.

Lemma length_mono_window (L : nat) (x : list R) (start : nat) (out : list R * list R) :
  length out.1 = L -> length out.2 = L ->
  length (mono_window L x start out).1 = L /\ length (mono_window L x start out).2 = L.
Proof.
  intros H1 H2. unfold mono_window. destruct (for_loop _ _ _ _) as [vw aw].
  apply (js_for_inv (fun p : list R * list R => length p.1 = L /\ length p.2 = L)); [done|].
  intros i [p q] [Hp Hq]. cbn. by rewrite !length_insert.
Qed.

Lemma length_mono_pass (L : nat) (x : list R) :
  length (mono_pass L x).1 = L /\ length (mono_pass L x).2 = L.
Proof.
  unfold mono_pass.
  apply (js_for_inv (fun p : list R * list R => length p.1 = L /\ length p.2 = L)).
  - cbn. unfold f32_new. by rewrite length_replicate.
  - intros i p [Hp Hq]. by apply length_mono_window.
Qed.

Lemma length_normalize_channel (c : list R) : length (normalize_channel c) = length c.
Proof. unfold normalize_channel. destruct Rlt_dec; [apply length_map|done]. Qed.

Lemma well_formed_normalize_stem (rate : Z) (L : nat) (chs : list (list R)) :
  Forall (fun ch => length ch = L) chs ->
  well_formed (mkAudioBuffer rate L (normalize_stem chs)).
Proof.
  intros H. unfold well_formed, normalize_stem. cbn [ab_data ab_length].
  apply Forall_fmap. eapply Forall_impl; [exact H|]. intros ch Hc. cbn.
  by rewrite length_normalize_channel.
Qed.

Lemma Forall_f32_new (C L : nat) : Forall (fun ch => length ch = L) (replicate C (f32_new L)).
Proof. apply Forall_replicate. unfold f32_new. apply length_replicate. Qed.

Lemma separate_lengths (tf : option (tf_op -> bool)) (ab : AudioBuffer) :
  length (separate tf ab).1 = numberOfChannels ab /\
  length (separate tf ab).2 = numberOfChannels ab /\
  (well_formed ab ->
   Forall (fun ch => length ch = ab_length ab) (separate tf ab).1 /\
   Forall (fun ch => length ch = ab_length ab) (separate tf ab).2).
Proof.
  destruct (2 <=? numberOfChannels ab)%nat eqn:HC.
  - apply Nat.leb_le in HC.
    split; [|split].
    + unfold separate. rewrite (proj2 (Nat.leb_le _ _) HC).
      destruct (enhance _ _ _) as [[[? ?] ?] ?]. cbn.
      by rewrite !length_insert, length_replicate.
    + unfold separate. rewrite (proj2 (Nat.leb_le _ _) HC).
      destruct (enhance _ _ _) as [[[? ?] ?] ?]. cbn.
      by rewrite !length_insert, length_replicate.
    + intros Hwf. unfold separate. rewrite (proj2 (Nat.leb_le _ _) HC).
      destruct (stereo_pass_sym (ab_length ab) (getChannelData ab 0) (getChannelData ab 1))
        as (v & a & E & Hv & Ha); [apply length_getChannelData; auto; lia..|].
      rewrite E.
      destruct (enhance_sym tf (ab_length ab) v a Hv Ha) as (v' & a' & E' & Hv' & Ha').
      rewrite E'. cbn.
      split; repeat apply Forall_insert; rewrite ?length_map; auto; apply Forall_f32_new.
  - assert (Hm := length_mono_pass (ab_length ab) (getChannelData ab 0)).
    unfold separate. rewrite HC.
    destruct (mono_pass _ _) as [vd ad]. cbn in Hm |- *. destruct Hm as [Hv Ha].
    split; [|split].
    + by rewrite length_insert, length_replicate.
    + by rewrite length_insert, length_replicate.
    + intros _. split; apply Forall_insert; auto; apply Forall_f32_new.
Qed.

Lemma extractVocals_shape (tf : option (tf_op -> bool)) (ab : AudioBuffer) (stem : AudioBuffer) :
  In stem [fst (extractVocals tf ab); snd (extractVocals tf ab)] ->
  sampleRate stem = sampleRate ab /\ ab_length stem = ab_length ab /\
  numberOfChannels stem = numberOfChannels ab /\ (well_formed ab -> well_formed stem).
Proof.
  pose proof (separate_lengths tf ab) as (H1 & H2 & H3).
  unfold extractVocals. destruct (separate tf ab) as [vch ach]. cbn in H1, H2, H3.
  cbn. intros [<-|[<-|[]]]; unfold numberOfChannels, normalize_stem; cbn;
    rewrite length_map; (split; [done|split; [done|split; [done|]]]);
    intros Hwf; apply well_formed_normalize_stem; apply H3; done.
Qed.

(** ** What [processAudioWithAI] resolves with *)

Lemma atob_audioBufferToBase64 (ab : AudioBuffer) (fmt : format_tag) :
  atob (audioBufferToBase64 ab fmt) = wav_bytes ab.
Proof.
  destruct fmt; cbn [audioBufferToBase64]; unfold audioBufferToMp3Base64, audioBufferToWavBase64;
    apply atob_btoa, Forall_wav_bytes.
Qed.

(** [extractVocals] returns two buffers with the input's sample rate,
    length and channel count; when every input channel holds [length]
    samples, so does every channel of both stems. *)
Theorem extractVocals_preserves_shape (tf : option (tf_op -> bool)) (ab : AudioBuffer) :
  well_formed ab ->
  sampleRate (fst (extractVocals tf ab)) = sampleRate ab /\
  ab_length (fst (extractVocals tf ab)) = ab_length ab /\
  numberOfChannels (fst (extractVocals tf ab)) = numberOfChannels ab /\
  well_formed (fst (extractVocals tf ab)) /\
  sampleRate (snd (extractVocals tf ab)) = sampleRate ab /\
  ab_length (snd (extractVocals tf ab)) = ab_length ab /\
  numberOfChannels (snd (extractVocals tf ab)) = numberOfChannels ab /\
  well_formed (snd (extractVocals tf ab)).
Proof.
  intros Hwf.
  destruct (extractVocals_shape tf ab (fst (extractVocals tf ab))) as (A1 & A2 & A3 & A4);
    [by left|].
  destruct (extractVocals_shape tf ab (snd (extractVocals tf ab))) as (B1 & B2 & B3 & B4);
    [by right; left|].
  auto 10.
Qed.

Lemma extractVocals_preserves_shape_witness :
  numberOfChannels (snd (extractVocals None mono_1024_half)) = 1%nat /\
  well_formed (snd (extractVocals None mono_1024_half)).
Proof.
  destruct (extractVocals_preserves_shape None mono_1024_half) as (_ & _ & _ & _ & _ & _ & H1 & H2).
  - unfold well_formed, mono_1024_half. cbn [ab_data ab_length].
    constructor; [apply length_replicate|constructor].
  - split; [exact H1|exact H2].
Defined.

(** When the decode succeeds and the 30 s timer does not fire before the
    end, [processAudioWithAI] resolves, whatever the output format; each
    of the two base64 texts decodes to the WAV bytes of its stem, and
    [parse_wav] reads them as a PCM WAV file with the decoded buffer's
    channel count and sample rate and [length * numberOfChannels * 2]
    bytes of sample data, provided the buffer has a channel and the header
    fields fit their 16- and 32-bit slots.  When the timer fires first,
    the promise rejects with the timeout message. *)
Theorem processAudioWithAI_returns_wav (tf : option (tf_op -> bool)) (outputFormat : format_tag)
  (ab : AudioBuffer) :
  (1 <= numberOfChannels ab)%nat ->
  (Z.of_nat (numberOfChannels ab) * 2 < 2 ^ 16)%Z ->
  (0 <= sampleRate ab)%Z ->
  (sampleRate ab * Z.of_nat (numberOfChannels ab) * 2 < 2 ^ 32)%Z ->
  (Z.of_nat (44 + ab_length ab * numberOfChannels ab * 2) < 2 ^ 32)%Z ->
  (exists vocals accompaniment,
    processAudioWithAI tf outputFormat (Decoded ab false) = inr (vocals, accompaniment) /\
    atob vocals = wav_bytes (fst (extractVocals tf ab)) /\
    atob accompaniment = wav_bytes (snd (extractVocals tf ab)) /\
    parse_wav (atob vocals) =
      Some (Z.of_nat (numberOfChannels ab), sampleRate ab,
            Z.of_nat (ab_length ab * numberOfChannels ab * 2)) /\
    parse_wav (atob accompaniment) =
      Some (Z.of_nat (numberOfChannels ab), sampleRate ab,
            Z.of_nat (ab_length ab * numberOfChannels ab * 2))) /\
  processAudioWithAI tf outputFormat (Decoded ab true) =
    inl "Audio processing timed out after 30 seconds"%string.
Proof.
  intros Hc Hc2 Hr Hbr Hn. split; [|reflexivity].
  destruct (extractVocals_shape tf ab (fst (extractVocals tf ab))) as (A1 & A2 & A3 & _);
    [by left|].
  destruct (extractVocals_shape tf ab (snd (extractVocals tf ab))) as (B1 & B2 & B3 & _);
    [by right; left|].
  unfold processAudioWithAI.
  destruct (extractVocals tf ab) as [v a]. cbn [fst snd] in *.
  exists (audioBufferToBase64 v outputFormat), (audioBufferToBase64 a outputFormat).
  rewrite !atob_audioBufferToBase64.
  split; [done|]. split; [done|]. split; [done|].
  split.
  - rewrite parse_wav_bytes; rewrite ?A1, ?A2, ?A3; done.
  - rewrite parse_wav_bytes; rewrite ?B1, ?B2, ?B3; done.
Qed.

Lemma processAudioWithAI_returns_wav_witness :
  exists vocals accompaniment,
    processAudioWithAI None FormatMp3 (Decoded stereo_example false) = inr (vocals, accompaniment) /\
    parse_wav (atob vocals) = Some (2%Z, 44100%Z, 12%Z).
Proof.
  destruct (processAudioWithAI_returns_wav None FormatMp3 stereo_example)
    as [(v & a & E & _ & _ & P & _) _];
    try (unfold numberOfChannels, stereo_example; simpl; lia).
  exists v, a. split; [exact E|]. rewrite P. reflexivity.
Defined.

(** ** The base64 text and the data URL *)

Lemma get_In (n : nat) (s : string) (a : ascii) :
  String.get n s = Some a -> In a (list_ascii_of_string s).
Proof.
  revert n; induction s as [|c s IH]; intros n H; [discriminate|].
  destruct n as [|n]; cbn in H |- *; [injection H as <-; by left|right; eauto].
Qed.

Lemma b64_char_charset (k : Z) :
  In (b64_char k) (list_ascii_of_string b64_alphabet) \/ b64_char k = "="%char.
Proof.
  unfold b64_char. destruct (String.get _ _) as [a|] eqn:E; [left; by eapply get_In|by right].
Qed.

Lemma base64_chars_charset (bs : list Z) :
  Forall (fun a => In a (list_ascii_of_string b64_alphabet) \/ a = "="%char) (base64_chars bs).
Proof.
  remember (length bs) as n eqn:Hn. revert bs Hn.
  induction n as [n IH] using lt_wf_ind; intros bs Hn.
  destruct bs as [|b0 [|b1 [|b2 rest]]]; cbn [base64_chars];
    repeat match goal with
    | |- Forall _ (_ :: _) => constructor
    | |- Forall _ [] => constructor
    end; try apply b64_char_charset; try (right; reflexivity).
  apply (IH (length rest)); [cbn in Hn; lia|done].
Qed.

Lemma length_base64_chars (bs : list Z) :
  length (base64_chars bs) = (4 * ((length bs + 2) / 3))%nat.
Proof.
  remember (length bs) as n eqn:Hn. revert bs Hn.
  induction n as [n IH] using lt_wf_ind; intros bs Hn.
  destruct bs as [|b0 [|b1 [|b2 rest]]]; cbn [base64_chars]; subst n; cbn [length]; try reflexivity.
  rewrite (IH (length rest)) by (cbn; lia || done).
  replace (Datatypes.S (Datatypes.S (Datatypes.S (length rest))) + 2)%nat
    with (1 * 3 + (length rest + 2))%nat by lia.
  rewrite Nat.div_add_l by lia. lia.
Qed.

Lemma length_string_of_list_ascii (l : list ascii) :
  String.length (string_of_list_ascii l) = length l.
Proof. induction l as [|a l IH]; cbn; auto. Qed.

Lemma b64_alphabet_no_comma : ~ In ","%char (list_ascii_of_string b64_alphabet).
Proof. cbn. intuition discriminate. Qed.

Lemma no_comma_btoa (bs : list Z) : no_comma (btoa bs) = true.
Proof.
  unfold no_comma, btoa. rewrite list_ascii_of_string_of_list_ascii.
  apply forallb_forall. intros a Ha.
  pose proof (proj1 (List.Forall_forall _ _) (base64_chars_charset bs) a Ha) as [H|H].
  - destruct (Ascii.eqb_spec a ","%char) as [->|]; [by apply b64_alphabet_no_comma in H|done].
  - by subst.
Qed.

Lemma split_on_cons_nonempty (sep : ascii) (s : string) : split_on sep s <> [].
Proof.
  induction s as [|c s IH]; cbn; [discriminate|].
  destruct (Ascii.eqb c sep); [discriminate|]. destruct (split_on sep s); discriminate.
Qed.

Lemma split_on_no_comma (s : string) : no_comma s = true -> split_on ","%char s = [s].
Proof.
  induction s as [|c s IH]; intros H; [reflexivity|].
  unfold no_comma in H. cbn in H. apply andb_prop in H as [Hc Hs].
  cbn. apply negb_true_iff in Hc. rewrite Hc. by rewrite IH.
Qed.

Lemma split_on_append (s1 s2 : string) :
  no_comma s1 = true ->
  exists p ps, split_on ","%char s2 = p :: ps /\
               split_on ","%char (String.append s1 s2) = String.append s1 p :: ps.
Proof.
  induction s1 as [|c s1 IH]; intros H.
  - destruct (split_on ","%char s2) as [|p ps] eqn:E;
      [by apply split_on_cons_nonempty in E|]. by exists p, ps.
  - unfold no_comma in H. cbn in H. apply andb_prop in H as [Hc Hs].
    apply negb_true_iff in Hc. destruct (IH Hs) as (p & ps & E1 & E2).
    exists p, ps. split; [done|]. cbn. rewrite Hc, E2. reflexivity.
Qed.

(** [btoa] of [n] bytes is [4 * ceil(n / 3)] characters long, each a
    character of the base64 alphabet or the padding [=]. *)
Theorem btoa_length_charset (bytes : list Z) :
  String.length (btoa bytes) = (4 * ((length bytes + 2) / 3))%nat /\
  Forall (fun a => In a (list_ascii_of_string b64_alphabet) \/ a = "="%char)
    (list_ascii_of_string (btoa bytes)).
Proof.
  unfold btoa. rewrite length_string_of_list_ascii, list_ascii_of_string_of_list_ascii.
  split; [apply length_base64_chars|apply base64_chars_charset].
Qed.

(** The original kept in the result: for a file type without a comma,
    [split(",")[1]] of the data URL is the whole base64 payload, and it
    decodes back to the file's bytes. *)
Theorem original_is_file_payload (mime : string) (bytes : list Z) :
  no_comma mime = true -> Forall byte_range bytes ->
  originalBase64 (readAsDataURL mime bytes) = Some (btoa bytes) /\
  atob (btoa bytes) = bytes.
Proof.
  intros Hm Hb. split; [|by apply atob_btoa].
  unfold originalBase64, readAsDataURL.
  set (m := if String.eqb mime "" then "application/octet-stream"%string else mime).
  assert (Hm' : no_comma m = true) by (unfold m; destruct String.eqb; [reflexivity|exact Hm]).
  assert (Ht := no_comma_btoa bytes). set (t := btoa bytes) in *. clearbody t m.
  assert (E3 : split_on ","%char (String.append ";base64," t) = [";base64"%string; t]).
  { cbn. rewrite (split_on_no_comma t Ht). reflexivity. }
  destruct (split_on_append m (String.append ";base64," t) Hm') as (p1 & ps1 & E1 & E2).
  rewrite E3 in E1. injection E1 as <- <-.
  destruct (split_on_append "data:" (String.append m (String.append ";base64," t)) eq_refl)
    as (p2 & ps2 & E4 & E5).
  rewrite E2 in E4. injection E4 as <- <-.
  rewrite E5. reflexivity.
Qed.

Lemma original_is_file_payload_witness :
  originalBase64 (readAsDataURL "audio/wav" [82; 73; 70; 70]%Z) = Some (btoa [82; 73; 70; 70]%Z).
Proof.
  apply (original_is_file_payload "audio/wav" [82; 73; 70; 70]%Z); [reflexivity|].
  repeat constructor; unfold byte_range; lia.
Defined.

(** ** What the progress bar and the result panel show *)

Lemma step_display_inv (w w' : World) (e : event) :
  guard_inv w -> display_inv w.1 -> step w e = Some w' -> display_inv w'.1.
Proof.
  destruct w as [s active]. unfold guard_inv, display_inv. cbn.
  intros [Hle Hiff] [Hi1 Hi2] Hstep.
  destruct e; cbn in Hstep.
  - unfold handleExtractVocals in Hstep.
    destruct (isProcessing s) eqn:Hp.
    + injection Hstep as <-. cbn. rewrite Hp. auto.
    + destruct (inputFile s) as [f|].
      * destruct (engineLoaded s); cbn in Hstep; injection Hstep as <-; cbn;
          [split; [discriminate|auto]|rewrite Hp; auto].
      * injection Hstep as <-. cbn. rewrite Hp. auto.
  - injection Hstep as <-. cbn. auto.
  - injection Hstep as <-. cbn. unfold initTensorFlow.
    destruct (_ || _); cbn; auto.
  - destruct active as [|n]; [discriminate|]. injection Hstep as <-. cbn.
    assert (Hp : isProcessing s = true) by (apply Hiff; lia).
    rewrite Hp. split; [discriminate|]. intros _. split; [|by right].
    by apply Hi2.
  - destruct active as [|n]; [discriminate|]. injection Hstep as <-. cbn.
    split; [auto|discriminate].
  - destruct active as [|n]; [discriminate|]. injection Hstep as <-. cbn.
    split; [auto|discriminate].
Qed.

(** From the initial state, after any sequence of events: while no run is
    in progress the progress is 0; during a run no result is shown and
    the progress is 0 or 25. *)
Theorem progress_and_result_display (evs : list event) (s : ExtractionState) (n : nat) :
  run_events (initialState, 0%nat) evs = Some (s, n) ->
  (isProcessing s = false -> progress s = 0%Z) /\
  (isProcessing s = true -> result s = None /\ (progress s = 0%Z \/ progress s = 25%Z)).
Proof.
  assert (Hgen : forall evs w w', guard_inv w -> display_inv w.1 ->
            run_events w evs = Some w' -> display_inv w'.1).
  { induction evs0 as [|e evs0 IH]; intros w w' Hg Hd Hrun; cbn in Hrun.
    - by injection Hrun as <-.
    - destruct (step w e) as [w1|] eqn:Hs; [|discriminate].
      apply (IH w1 w'); [by apply (step_guard_inv w w1 e)|
                         by apply (step_display_inv w w1 e)|done]. }
  intros Hrun. apply (Hgen evs (initialState, 0%nat) (s, n)); [| |done].
  - unfold guard_inv. cbn. split; [lia|]. split; discriminate.
  - unfold display_inv. cbn. split; [done|discriminate].
Qed.

Lemma progress_and_result_display_witness :
  progress (fst (initTensorFlow true false initialState, 0%nat)) = 0%Z /\
  result (mkState (Some "song.mp3"%string) true 25 None None true) = None.
Proof.
  split.
  - apply (proj1 (progress_and_result_display [InitEngine true false] _ _ eq_refl)). reflexivity.
  - apply (proj1 (proj2 (progress_and_result_display
      [InitEngine true false; SelectFile (Some "song.mp3"%string); Click; Loaded] _ 1%nat eq_refl)
      eq_refl)).
Defined.

(** ** The file picker *)

Lemma validateFile_ok (f : File) :
  (validateFile f).2 = true -> accepted f.
Proof.
  unfold validateFile, accepted.
  destruct (String.prefix _ _) eqn:Hp; cbn; [|discriminate].
  destruct (maxSize <? file_size f)%Z eqn:Hs; cbn; [discriminate|].
  intros _. split; [done|]. apply Z.ltb_ge in Hs. lia.
Qed.

Lemma handleFileSelect_forwarded (u : UploadState) (g f : File) :
  forwarded (handleFileSelect u g) = Some f ->
  forwarded u = Some f \/ (accepted f /\ g = f).
Proof.
  unfold handleFileSelect. pose proof (validateFile_ok g) as Hok.
  destruct (validateFile g) as [err ok]. cbn in Hok |- *.
  destruct ok; [|by left]. intros [= <-]. right. split; [by apply Hok|done].
Qed.

Lemma picker_step_forwarded (u : UploadState) (e : picker_event) (f : File) :
  forwarded (picker_step u e) = Some f ->
  forwarded u = Some f \/
  (accepted f /\ exists rest, e = PickerDrop false (f :: rest) \/ e = PickerInput (f :: rest)).
Proof.
  destruct e as [[|] files|files|]; cbn.
  - by left.
  - destruct files as [|g rest]; [by left|]. intros H.
    destruct (handleFileSelect_forwarded u g f H) as [H1|[Ha <-]]; [by left|].
    right. split; [done|]. exists rest. by left.
  - destruct files as [|g rest]; [by left|]. intros H.
    destruct (handleFileSelect_forwarded u g f H) as [H1|[Ha <-]]; [by left|].
    right. split; [done|]. exists rest. by right.
  - discriminate.
Qed.

(** The picker hands a file to [onFileChange] only as the first file of a
    drop made while it is enabled or of a change of its file input, and
    only when that file has an [audio/] type and at most 50 MB. *)
Theorem picker_forwards_only_accepted (u : UploadState) (evs : list picker_event) (f : File) :
  forwarded u = None -> forwarded (run_picker u evs) = Some f ->
  accepted f /\
  exists rest, In (PickerDrop false (f :: rest)) evs \/ In (PickerInput (f :: rest)) evs.
Proof.
  assert (Hgen : forall u, forwarded (run_picker u evs) = Some f ->
            forwarded u = Some f \/
            (accepted f /\ exists rest,
               In (PickerDrop false (f :: rest)) evs \/ In (PickerInput (f :: rest)) evs)).
  { induction evs as [|e evs IH]; intros u0 H; cbn in H; [by left|].
    destruct (IH _ H) as [H1|(Ha & rest & Hin)].
    - destruct (picker_step_forwarded u0 e f H1) as [H2|(Ha & rest & [-> | ->])];
        [by left| |]; right; split; try done; exists rest; [left|right]; by left.
    - right. split; [done|]. exists rest. destruct Hin; [left|right]; by right. }
  intros H0 H. destruct (Hgen u H) as [H1|H1]; [congruence|done].
Qed.

Lemma picker_forwards_only_accepted_witness :
  accepted (mkFile "audio/wav" 52428800) /\
  exists rest,
    In (PickerDrop false (mkFile "audio/wav" 52428800 :: rest))
      [PickerDrop true [mkFile "audio/mpeg" 10]; PickerInput [mkFile "text/plain" 5];
       PickerInput [mkFile "audio/wav" 52428800]] \/
    In (PickerInput (mkFile "audio/wav" 52428800 :: rest))
      [PickerDrop true [mkFile "audio/mpeg" 10]; PickerInput [mkFile "text/plain" 5];
       PickerInput [mkFile "audio/wav" 52428800]].
Proof.
  apply (picker_forwards_only_accepted (mkUpload None None)
    [PickerDrop true [mkFile "audio/mpeg" 10]; PickerInput [mkFile "text/plain" 5];
     PickerInput [mkFile "audio/wav" 52428800]]); reflexivity.
Defined.

(** ** The mono branch as an overlap-add *)

Lemma js_for_step1 {St} (n fuel lo : nat) (cond : nat -> bool) (body : nat -> St -> St) (s : St) :
  (n < fuel)%nat -> (forall i, (lo <= i < lo + n)%nat -> cond i = true) -> cond (lo + n)%nat = false ->
  js_for fuel lo 1 cond body s = for_loop n lo body s.
Proof.
  revert fuel lo s; induction n as [|n IH]; intros fuel lo s Hf Ht Hf'.
  - destruct fuel as [|f]; [lia|]. cbn. rewrite Nat.add_0_r in Hf'. by rewrite Hf'.
  - destruct fuel as [|f]; [lia|]. cbn. rewrite Ht by lia.
    rewrite Nat.add_1_r. apply IH; [lia| |].
    + intros i Hi. apply Ht. lia.
    + by replace (Datatypes.S lo + n)%nat with (lo + Datatypes.S n)%nat by lia.
Qed.

Lemma js_for_stop {St} (P : nat -> St -> Prop) (fuel lo step bound : nat) (cond : nat -> bool)
  (body : nat -> St -> St) (s : St) :
  P lo s ->
  (forall i s, cond i = true -> P i s -> P (i + step)%nat (body i s)) ->
  (forall i, cond i = true -> (i < bound)%nat) ->
  (bound <= lo + step * fuel)%nat ->
  exists i, cond i = false /\ P i (js_for fuel lo step cond body s).
Proof.
  revert lo s; induction fuel as [|f IH]; intros lo s H0 Hs Hb Hle; cbn.
  - exists lo. split; [|done]. destruct (cond lo) eqn:E; [|done].
    apply Hb in E. lia.
  - destruct (cond lo) eqn:E; [|by exists lo].
    apply IH; auto. lia.
Qed.

Lemma rd_window (x : list R) (start i : nat) :
  (i < windowSize)%nat -> rd (take windowSize (drop start x)) i = rd x (start + i).
Proof. intros Hi. unfold rd. by rewrite lookup_take_lt, lookup_drop. Qed.

Lemma mono_window_spec (L : nat) (x : list R) (start : nat) (out : list R * list R) :
  (start + windowSize < L)%nat -> length out.1 = L -> length out.2 = L ->
  forall k,
  rd (mono_window L x start out).1 k =
    rd out.1 k + (if (start <=? k)%nat && (k <? start + windowSize)%nat
                  then rd x k * vocalWeight (k - start) else 0) /\
  rd (mono_window L x start out).2 k =
    rd out.2 k + (if (start <=? k)%nat && (k <? start + windowSize)%nat
                  then rd x k * accompanimentWeight (k - start) else 0).
Proof.
  intros Hs H1 H2. unfold mono_window.
  match goal with |- context [for_loop windowSize 0 ?b ?s0] => set (B := b); set (S0 := s0) end.
  assert (HW := for_loop_ind
    (fun n (p : list R * list R) => length p.1 = windowSize /\ length p.2 = windowSize /\
       forall i, (i < n)%nat ->
         rd p.1 i = rd x (start + i) * vocalWeight i /\
         rd p.2 i = rd x (start + i) * accompanimentWeight i)
    B windowSize 0 S0).
  destruct (for_loop windowSize 0 B S0) as [vw aw].
  destruct HW as (Hvw & Haw & Hw).
  { unfold S0, f32_new. cbn [fst snd]. rewrite length_replicate. split; [done|split; [done|]]. lia. }
  { intros i [p q] Hi (Hp & Hq & Hpq). unfold B. cbn [fst snd] in *.
    rewrite !length_insert. split; [done|split; [done|]]. intros j Hj.
    destruct (decide (j = i)) as [->|Hne].
    - rewrite !rd_insert_eq by lia. rewrite rd_window by lia. done.
    - rewrite !rd_insert_ne by done. apply Hpq. lia. }
  cbn [fst snd] in Hvw, Haw, Hw.
  rewrite (js_for_step1 windowSize).
  2: { lia. }
  2: { intros i Hi. apply andb_true_intro. split; apply Nat.ltb_lt; lia. }
  2: { cbn. reflexivity. }
  assert (HA := for_loop_ind
    (fun n (p : list R * list R) => length p.1 = L /\ length p.2 = L /\
       forall k,
         rd p.1 k = rd out.1 k + (if (start <=? k)%nat && (k <? start + n)%nat
                                  then rd vw (k - start) else 0) /\
         rd p.2 k = rd out.2 k + (if (start <=? k)%nat && (k <? start + n)%nat
                                  then rd aw (k - start) else 0))
    (fun i '(vocalsData, accompanimentData) =>
       (<[(start + i)%nat := rd vocalsData (start + i) + rd vw i]> vocalsData,
        <[(start + i)%nat := rd accompanimentData (start + i) + rd aw i]> accompanimentData))
    windowSize 0 out).
  destruct HA as (HL1 & HL2 & Hk).
  - split; [done|split; [done|]]. intros k.
    replace ((start <=? k)%nat && (k <? start + 0)%nat) with false
      by (symmetry; apply andb_false_iff; destruct (Nat.leb_spec start k); [right|left];
          [apply Nat.ltb_ge|]; lia || done).
    split; lra.
  - intros i [p q] Hi (Hp & Hq & Hpq). cbn [fst snd] in *.
    rewrite !length_insert. split; [done|split; [done|]]. intros k.
    destruct (Hpq k) as [Hp' Hq'].
    destruct (decide (k = start + i)%nat) as [->|Hne].
    + rewrite !rd_insert_eq by lia. rewrite (proj1 (Hpq (start + i)%nat)), (proj2 (Hpq (start + i)%nat)).
      replace ((start <=? start + i)%nat && (start + i <? start + i)%nat) with false
        by (rewrite Nat.ltb_irrefl, andb_false_r; done).
      replace ((start <=? start + i)%nat && (start + i <? start + Datatypes.S i)%nat) with true
        by (symmetry; apply andb_true_intro; split; [apply Nat.leb_le|apply Nat.ltb_lt]; lia).
      replace (start + i - start)%nat with i by lia. split; lra.
    + rewrite !rd_insert_ne by lia. rewrite Hp', Hq'.
      replace ((start <=? k)%nat && (k <? start + Datatypes.S i)%nat)
        with ((start <=? k)%nat && (k <? start + i)%nat); [done|].
      destruct (Nat.leb_spec start k), (Nat.ltb_spec k (start + i)),
        (Nat.ltb_spec k (start + Datatypes.S i)); cbn; lia || done.
  - cbn [Nat.add] in Hk. intros k. destruct (Hk k) as [Hk1 Hk2].
    cbn [fst snd]. rewrite Hk1, Hk2.
    destruct (Nat.leb_spec start k), (Nat.ltb_spec k (start + windowSize)); cbn; [|split; lra..].
    destruct (Hw (k - start)%nat) as [Hw1 Hw2]; [lia|].
    replace (start + (k - start))%nat with k in Hw1, Hw2 by lia.
    rewrite Hw1, Hw2. split; reflexivity.
Qed.

Lemma window_sum_app (weight : nat -> R) (l1 l2 : list nat) (x : list R) (k : nat) :
  window_sum weight (l1 ++ l2) x k = window_sum weight l1 x k + window_sum weight l2 x k.
Proof.
  unfold window_sum. induction l1 as [|s l1 IH]; cbn [app map fold_right]; [lra|]. rewrite IH. lra.
Qed.

Lemma window_sum_single (weight : nat -> R) (s : nat) (x : list R) (k : nat) :
  window_sum weight [s] x k =
    (if (s <=? k)%nat && (k <? s + windowSize)%nat then rd x k * weight (k - s)%nat else 0).
Proof. unfold window_sum. cbn [map fold_right]. lra. Qed.

Lemma filter_windows_tail (L j n : nat) :
  (Z.of_nat (j * hopSize) <? Z.of_nat L - Z.of_nat windowSize)%Z = false ->
  List.filter (fun s => (Z.of_nat s <? Z.of_nat L - Z.of_nat windowSize)%Z)
    (map (fun j => j * hopSize)%nat (seq j n)) = [].
Proof.
  revert j; induction n as [|n IH]; intros j Hj; [done|].
  cbn [seq map List.filter]. rewrite Hj. apply IH.
  apply Z.ltb_ge in Hj. apply Z.ltb_ge. lia.
Qed.

Lemma mono_pass_window_sum (L : nat) (x : list R) (k : nat) :
  rd (mono_pass L x).1 k = window_sum vocalWeight (processed_windows L) x k /\
  rd (mono_pass L x).2 k = window_sum accompanimentWeight (processed_windows L) x k.
Proof.
  set (cond := fun s : nat => (Z.of_nat s <? Z.of_nat L - Z.of_nat windowSize)%Z).
  set (W := fun j => List.filter cond (map (fun j => j * hopSize)%nat (seq 0 j))).
  assert (Hstop := js_for_stop
    (fun i (p : list R * list R) =>
       exists j, i = (j * hopSize)%nat /\ (j <= Datatypes.S (L / hopSize))%nat /\
         length p.1 = L /\ length p.2 = L /\
         forall k, rd p.1 k = window_sum vocalWeight (W j) x k /\
                   rd p.2 k = window_sum accompanimentWeight (W j) x k)
    (Datatypes.S L) 0 hopSize L cond (mono_window L x) (f32_new L, f32_new L)).
  destruct Hstop as (i & Hci & j & -> & Hj & _ & _ & Hk).
  - exists 0%nat. cbn [fst snd]. unfold f32_new. rewrite length_replicate.
    split; [done|split; [lia|split; [done|split; [done|]]]].
    intros k'. unfold rd, W, window_sum. cbn.
    destruct (decide (k' < L)%nat).
    + rewrite lookup_replicate_2 by done. cbn. split; reflexivity.
    + rewrite (proj1 (lookup_replicate_None _ _ _)) by lia. cbn. split; reflexivity.
  - intros i [p q] Hc (j & -> & Hj & Hp & Hq & Hpq). cbn [fst snd] in *.
    assert (Hlt : (j * hopSize + windowSize < L)%nat)
      by (unfold cond in Hc; apply Z.ltb_lt in Hc; lia).
    assert (Hjl : (j <= L / hopSize)%nat)
      by (apply Nat.div_le_lower_bound; unfold hopSize, windowSize in *; cbn in *; lia).
    destruct (length_mono_window L x (j * hopSize) (p, q) Hp Hq) as [Hp' Hq'].
    exists (Datatypes.S j). split; [lia|]. split; [lia|]. split; [done|]. split; [done|].
    intros k'. destruct (mono_window_spec L x (j * hopSize) (p, q) Hlt Hp Hq k') as [E1 E2].
    rewrite E1, E2. cbn [fst snd]. destruct (Hpq k') as [-> ->].
    unfold W. rewrite seq_S, map_app, List.filter_app, !window_sum_app. cbn [map List.filter].
    rewrite Nat.add_0_l, Hc, !window_sum_single. split; lra.
  - intros i Hc. unfold cond in Hc. apply Z.ltb_lt in Hc. lia.
  - replace hopSize with 256%nat by reflexivity. lia.
  - unfold mono_pass. fold cond.
    assert (HW : W j = processed_windows L).
    { unfold W, processed_windows, cond.
      replace (seq 0 (Datatypes.S (L / hopSize)))
        with (seq 0 j ++ seq j (Datatypes.S (L / hopSize) - j))
        by (rewrite <- seq_app; f_equal; lia).
      rewrite map_app, List.filter_app, (filter_windows_tail L j) by exact Hci.
      by rewrite app_nil_r. }
    rewrite <- HW. apply Hk.
Qed.

Lemma list_of_rd (v : list R) (L : nat) (f : nat -> R) :
  length v = L -> (forall k, rd v k = f k) -> v = map f (seq 0 L).
Proof.
  intros Hl Hf. apply list_eq. intros i. rewrite lookup_map_R.
  destruct (decide (i < L)%nat) as [Hi|Hi].
  - rewrite lookup_seq_lt by done. cbn. rewrite rd_lookup by lia. by rewrite Hf.
  - rewrite lookup_seq_ge by lia. apply lookup_ge_None_2. lia.
Qed.

(** For a mono buffer, each stem is the normalised overlap-add over the
    windows the loop reaches, [start = j * 256] with
    [start < length - 1024]: before the gain, sample [k] of the vocal stem
    is the sum of [x[k] * vocalWeight(k - start)] over those windows that
    contain [k] (and likewise with [accompanimentWeight]). *)
Theorem mono_stems_overlap_add (tf : option (tf_op -> bool)) (ab : AudioBuffer) :
  numberOfChannels ab = 1%nat ->
  getChannelData (fst (extractVocals tf ab)) 0 =
    normalize_channel (map (window_sum vocalWeight (processed_windows (ab_length ab))
                              (getChannelData ab 0)) (seq 0 (ab_length ab))) /\
  getChannelData (snd (extractVocals tf ab)) 0 =
    normalize_channel (map (window_sum accompanimentWeight (processed_windows (ab_length ab))
                              (getChannelData ab 0)) (seq 0 (ab_length ab))).
Proof.
  intros HC.
  pose proof (length_mono_pass (ab_length ab) (getChannelData ab 0)) as [Hl1 Hl2].
  pose proof (mono_pass_window_sum (ab_length ab) (getChannelData ab 0)) as Hk.
  unfold extractVocals, separate. rewrite HC. cbn [Nat.leb].
  destruct (mono_pass (ab_length ab) (getChannelData ab 0)) as [vd ad]. cbn [fst snd] in *.
  cbn [fst snd]. rewrite !getChannelData_normalize_stem.
  unfold createBuffer. cbn [ab_data replicate].
  cbn. split; f_equal; apply list_of_rd; auto; intros k; apply Hk.
Qed.

Lemma mono_stems_overlap_add_witness :
  processed_windows (ab_length mono_1100_half) = [0%nat] /\
  getChannelData (fst (extractVocals None mono_1100_half)) 0 =
    normalize_channel (map (window_sum vocalWeight [0%nat] (getChannelData mono_1100_half 0))
                           (seq 0 (ab_length mono_1100_half))).
Proof.
  assert (Hw : processed_windows (ab_length mono_1100_half) = [0%nat]) by reflexivity.
  split; [exact Hw|]. rewrite <- Hw.
  apply (proj1 (mono_stems_overlap_add None mono_1100_half eq_refl)).
Defined.
